(** * A macro-generic dynamic array (include/array.h)

    Shallow embedding of the [array_*] macros and the properties of the
    growth/shrink policy and of the sticky error flag.

    Conventions.
    - [uint64_t] values are integers of [Z]; every arithmetic step that can
      leave [0, 2^64) in C is followed by [wrap64].
    - The heap block behind [buf] is a list with one entry per allocated
      slot; the null pointer is [None].
    - A read or write outside the block is undefined behaviour in C; it is
      the outcome [Undef], never a silent no-op.
    - [calloc]/[realloc] belong to the C library: their answer is an input
      of every macro that calls them ([alloc_reply]), and every call is
      recorded, with its outcome, in the log of the execution.
    - The arguments of a macro are values: an argument expression is taken
      to have no side effect and not to read the struct it is applied to.
    - [array_free] hands the block back to the C library; what is
      embedded is which block it passes to [free], not the heap. *)

From stdpp Require Import base numbers list option.

Local Open Scope Z_scope.

(** ** Machine integers *)

Definition wrap64 (z : Z) : Z := z mod 2 ^ 64.

(** No object is larger than [PTRDIFF_MAX] bytes: the allocator refuses
    such a request whatever the state of the heap. The arithmetic of the
    macros wraps all the same; that a granted reallocation never follows a
    wrapped doubling is proved below, not assumed. *)
Definition PTRDIFF_MAX : Z := 2 ^ 63 - 1.

(** ** Outcomes: a result with the allocator calls made, or undefined
       behaviour *)

(** One call of [calloc] or [realloc]: the bytes asked for and whether a
    block came back. *)
Inductive alloc_event : Set :=
| Granted (bytes : Z)
| Refused (bytes : Z).

Definition granted (e : alloc_event) : Prop :=
  match e with
  | Granted _ => True
  | Refused _ => False
  end.

(** No allocation of the log failed. *)
Definition all_granted (log : list alloc_event) : Prop := Forall granted log.

Inductive exec (A : Type) : Type :=
| Normal (a : A) (log : list alloc_event)
| Undef.
Arguments Normal {A} a log.
Arguments Undef {A}.

#[global] Instance exec_ret : MRet exec := fun _ a => Normal a [].
#[global] Instance exec_bind : MBind exec := fun _ _ f m =>
  match m with
  | Normal a log =>
      match f a with
      | Normal b log' => Normal b (log ++ log')
      | Undef => Undef
      end
  | Undef => Undef
  end.

(** ** The element type: what the macros need to know about [T] *)

Class CType (T : Type) : Type := {
  sizeof : positive;   (* sizeof(T), at least one byte *)
  zero : T             (* the value of T whose bytes are all zero *)
}.

(** ** The error enumeration and the struct *)

Inductive array_error : Set :=
| OK_ERROR
| OUT_OF_MEM
| OUT_OF_BOUNDS.

#[global] Instance array_error_eq_dec : EqDecision array_error.
Proof. solve_decision. Defined.

Record array_struct (T : Type) : Type := mk_array {
  buf : option (list T);
  capacity : Z;
  size : Z;
  min_capacity : Z;
  error : array_error
}.
Arguments mk_array {T} _ _ _ _ _.
Arguments buf {T} _.
Arguments capacity {T} _.
Arguments size {T} _.
Arguments min_capacity {T} _.
Arguments error {T} _.

Section Array.
Context {T : Type} `{CType T}.

(** Assignments to one field. *)
Definition set_buf (a : array_struct T) (p : option (list T)) : array_struct T :=
  mk_array p (capacity a) (size a) (min_capacity a) (error a).
Definition set_capacity (a : array_struct T) (c : Z) : array_struct T :=
  mk_array (buf a) c (size a) (min_capacity a) (error a).
Definition set_size (a : array_struct T) (n : Z) : array_struct T :=
  mk_array (buf a) (capacity a) n (min_capacity a) (error a).
Definition set_min_capacity (a : array_struct T) (c : Z) : array_struct T :=
  mk_array (buf a) (capacity a) (size a) c (error a).
Definition set_error (a : array_struct T) (e : array_error) : array_struct T :=
  mk_array (buf a) (capacity a) (size a) (min_capacity a) e.

(** ** The C library's allocator *)

(** What the allocator answers to one call: no memory, or a block, whose
    fresh slots hold the indeterminate values [junk]. *)
Inductive alloc_reply : Type :=
| AllocFail
| AllocGrant (junk : nat -> T).

(** The block of [n] slots that keeps the old contents where both blocks
    have a slot. *)
Definition resize_block (junk : nat -> T) (n : nat) (old : list T) : list T :=
  map (fun i => default (junk i) (old !! i)) (seq 0 n).

(** [calloc(nmemb, sizeof(T))]: zeroed slots; the product is checked by
    the library without wrap-around. No block is larger than
    [PTRDIFF_MAX] bytes. *)
Definition calloc (r : alloc_reply) (nmemb : Z) : option (list T) :=
  match r with
  | AllocFail => None
  | AllocGrant _ =>
      if decide (Z.pos sizeof * nmemb <= PTRDIFF_MAX)
      then Some (replicate (Z.to_nat nmemb) zero)
      else None
  end.

(** [realloc(p, bytes)]: on failure the old block stays as it is and the
    result is null; on success the new block has room for
    [bytes / sizeof(T)] values of [T]. A null [p] makes it a [malloc].
    A request of zero bytes, where the C library may free [p] and return
    null, is answered here like any other; the macros make one only
    after an [array_init] with capacity 0, and what is proved about
    [array_free] is stated for capacities of at least 1. *)
Definition realloc (r : alloc_reply) (p : option (list T)) (bytes : Z)
  : option (list T) :=
  match r with
  | AllocFail => None
  | AllocGrant junk =>
      if decide (bytes <= PTRDIFF_MAX)
      then Some (resize_block junk (Z.to_nat (bytes / Z.pos sizeof)) (default [] p))
      else None
  end.

(** The two calls as steps of an execution. *)
Definition call_calloc (r : alloc_reply) (nmemb : Z) : exec (option (list T)) :=
  match calloc r nmemb with
  | Some block => Normal (Some block) [Granted (Z.pos sizeof * nmemb)]
  | None => Normal None [Refused (Z.pos sizeof * nmemb)]
  end.

Definition call_realloc (r : alloc_reply) (p : option (list T)) (bytes : Z)
  : exec (option (list T)) :=
  match realloc r p bytes with
  | Some block => Normal (Some block) [Granted bytes]
  | None => Normal None [Refused bytes]
  end.

(** ** Access to the block: [p[i]] as an rvalue and as an lvalue *)

Definition load (p : option (list T)) (i : Z) : exec T :=
  match p with
  | None => Undef
  | Some l =>
      if decide (0 <= i)
      then match l !! Z.to_nat i with
           | Some x => mret x
           | None => Undef
           end
      else Undef
  end.

Definition store (p : option (list T)) (i : Z) (x : T) : exec (option (list T)) :=
  match p with
  | None => Undef
  | Some l =>
      if decide (0 <= i < Z.of_nat (length l))
      then mret (Some (<[Z.to_nat i := x]> l))
      else Undef
  end.

(** ** array_init *)

(** [init_capacity] is the value the argument has as a [uint64_t]. The
    struct is an argument as well: the macro assigns fields of a variable
    that exists before the call. *)

Definition array_init (r : alloc_reply) (init_capacity : Z) (a : array_struct T)
  : exec (array_struct T) :=
  p ← call_calloc r init_capacity;
  let a := set_buf a p in
  match buf a with
  | Some _ =>
      let a := set_size a 0 in
      let a := set_min_capacity a init_capacity in
      let a := set_capacity a init_capacity in
      mret (set_error a OK_ERROR)
  | None => mret (set_error a OUT_OF_MEM)
  end.

(** ** array_add *)

(** [buf[size++] = val] *)
Definition add_tail (val : T) (a : array_struct T) : exec (array_struct T) :=
  b ← store (buf a) (size a) val;
  mret (set_size (set_buf a b) (wrap64 (size a + 1))).

Definition array_add (r : alloc_reply) (val : T) (a : array_struct T)
  : exec (array_struct T) :=
  if decide (error a = OK_ERROR) then
    if decide (size a = capacity a) then
      let a := set_capacity a (wrap64 (capacity a * 2)) in
      temp ← call_realloc r (buf a) (wrap64 (Z.pos sizeof * capacity a));
      match temp with
      | None => mret (set_error a OUT_OF_MEM)
      | Some temp => add_tail val (set_buf a (Some temp))
      end
    else add_tail val a
  else mret a.

(** ** array_add_index *)

(** [for (i = start; index < i; --i) buf[i] = buf[i - 1];]
    The loop runs at most [start - index] times, which is the fuel. *)
Fixpoint shift_right_loop (fuel : nat) (p : option (list T)) (i index : Z)
  : exec (option (list T)) :=
  match fuel with
  | O => mret p
  | S fuel' =>
      if decide (index < i) then
        x ← load p (wrap64 (i - 1));
        p' ← store p i x;
        shift_right_loop fuel' p' (wrap64 (i - 1)) index
      else mret p
  end.

Definition shift_right (p : option (list T)) (start index : Z)
  : exec (option (list T)) :=
  shift_right_loop (Z.to_nat (start - index)) p start index.

(** The bounds test and what follows it. *)
Definition add_index_checked (index : Z) (val : T) (a : array_struct T)
  : exec (array_struct T) :=
  if decide (0 <= index ∧ index <= size a) then
    let a := set_size a (wrap64 (size a + 1)) in
    p ← shift_right (buf a) (wrap64 (size a - 1)) index;
    p' ← store p index val;
    mret (set_buf a p')
  else mret (set_error a OUT_OF_BOUNDS).

Definition array_add_index (r : alloc_reply) (index : Z) (val : T)
  (a : array_struct T) : exec (array_struct T) :=
  if decide (error a = OK_ERROR) then
    if decide (size a = capacity a) then
      let a := set_capacity a (wrap64 (capacity a * 2)) in
      temp ← call_realloc r (buf a) (wrap64 (Z.pos sizeof * capacity a));
      match temp with
      | None => mret (set_error a OUT_OF_MEM)
      | Some temp => add_index_checked index val (set_buf a (Some temp))
      end
    else add_index_checked index val a
  else mret a.

(** ** array_set and array_get *)

Definition array_set (index : Z) (val : T) (a : array_struct T)
  : exec (array_struct T) :=
  if decide (error a = OK_ERROR) then
    if decide (0 <= index ∧ index < size a) then
      p ← store (buf a) index val;
      mret (set_buf a p)
    else mret (set_error a OUT_OF_BOUNDS)
  else mret a.

(** The second component is the value assigned to [ret_val]; [None] when
    the macro does not assign it. *)
Definition array_get (index : Z) (a : array_struct T)
  : exec (array_struct T * option T) :=
  if decide (error a = OK_ERROR) then
    if decide (0 <= index ∧ index < size a) then
      x ← load (buf a) index;
      mret (a, Some x)
    else mret (set_error a OUT_OF_BOUNDS, None)
  else mret (a, None).

(** ** array_remove and array_remove_index *)

(** [if (--size == capacity / 2 && capacity != min_capacity) { ... }] *)
Definition shrink_after_decrement (r : alloc_reply) (a : array_struct T)
  : exec (array_struct T) :=
  let a := set_size a (wrap64 (size a - 1)) in
  if decide (size a = capacity a / 2 ∧ capacity a ≠ min_capacity a) then
    let a := set_capacity a (capacity a / 2) in
    temp ← call_realloc r (buf a) (wrap64 (Z.pos sizeof * capacity a));
    match temp with
    | None => mret (set_error a OUT_OF_MEM)
    | Some temp => mret (set_buf a (Some temp))
    end
  else mret a.

Definition array_remove (r : alloc_reply) (a : array_struct T)
  : exec (array_struct T) :=
  if decide (error a = OK_ERROR) then
    if decide (size a > 0) then shrink_after_decrement r a
    else mret (set_error a OUT_OF_BOUNDS)
  else mret a.

(** [for (i = index; i < bound; ++i) buf[i] = buf[i + 1];]
    with [bound = size - 1]; at most [bound - index] rounds. *)
Fixpoint shift_left_loop (fuel : nat) (p : option (list T)) (i bound : Z)
  : exec (option (list T)) :=
  match fuel with
  | O => mret p
  | S fuel' =>
      if decide (i < bound) then
        x ← load p (wrap64 (i + 1));
        p' ← store p i x;
        shift_left_loop fuel' p' (wrap64 (i + 1)) bound
      else mret p
  end.

Definition shift_left (p : option (list T)) (index bound : Z)
  : exec (option (list T)) :=
  shift_left_loop (Z.to_nat (bound - index)) p index bound.

Definition array_remove_index (r : alloc_reply) (index : Z) (a : array_struct T)
  : exec (array_struct T) :=
  if decide (error a = OK_ERROR) then
    if decide (size a > 0 ∧ 0 <= index ∧ index < size a) then
      p ← shift_left (buf a) index (wrap64 (size a - 1));
      shrink_after_decrement r (set_buf a p)
    else mret (set_error a OUT_OF_BOUNDS)
  else mret a.

(** ** array_size and array_error *)

Definition array_size (a : array_struct T) : Z := size a.
Definition array_error_state (a : array_struct T) : array_error := error a.

(** ** The operations as data, for runs *)

Inductive op : Type :=
| Append (val : T)
| InsertAt (index : Z) (val : T)
| SetAt (index : Z) (val : T)
| GetAt (index : Z)
| RemoveLast
| RemoveAt (index : Z).

Definition run_op (r : alloc_reply) (o : op) (a : array_struct T)
  : exec (array_struct T) :=
  match o with
  | Append val => array_add r val a
  | InsertAt index val => array_add_index r index val a
  | SetAt index val => array_set index val a
  | GetAt index => res ← array_get index a; mret (fst res)
  | RemoveLast => array_remove r a
  | RemoveAt index => array_remove_index r index a
  end.

(** A run: the operations in order, each with the allocator's answer to
    the call it may make; undefined behaviour ends the run. *)
Fixpoint run_ops (l : list (alloc_reply * op)) (a : array_struct T)
  : exec (array_struct T) :=
  match l with
  | [] => mret a
  | (r, o) :: l' => a' ← run_op r o a; run_ops l' a'
  end.

Definition appends (rvs : list (alloc_reply * T)) : list (alloc_reply * op) :=
  map (fun rv => (rv.1, Append rv.2)) rvs.


(** ** The stored elements *)

(** The elements of the array: the first [size] slots of the block. *)
Definition contents (a : array_struct T) : list T :=
  take (Z.to_nat (size a)) (default [] (buf a)).

(** ** Reachable states *)

(** The states of the runs that start with a successful [array_init] of
    at least one slot and in which no allocation fails. *)
Inductive reachable : array_struct T -> Prop :=
| reachable_init r init_capacity a0 a log :
    1 <= init_capacity ->
    array_init r init_capacity a0 = Normal a log ->
    all_granted log ->
    reachable a
| reachable_step r o a a' log :
    reachable a ->
    run_op r o a = Normal a' log ->
    all_granted log ->
    reachable a'.

(** What the struct and its block satisfy together in those states. *)
Record consistent (a : array_struct T) : Prop := mk_consistent {
  consistent_block : exists l, buf a = Some l /\ Z.of_nat (length l) = capacity a;
  consistent_size : 0 <= size a <= capacity a;
  consistent_min : 1 <= min_capacity a;
  consistent_pow2 : exists k : nat, capacity a = min_capacity a * 2 ^ Z.of_nat k;
  consistent_fits : Z.pos sizeof * capacity a <= PTRDIFF_MAX;
  consistent_no_oom : error a <> OUT_OF_MEM
}.


End Array.


(** ** A concrete element type, for examples: a 4-byte integer *)

#[global] Instance int_CType : CType Z := {| sizeof := 4; zero := 0 |}.

(** The allocator reply that grants the request and leaves [-1] in every
    fresh slot. *)
Definition grant : alloc_reply (T := Z) := AllocGrant (fun _ => -1).

(** A struct that was never initialised: whatever the stack held. *)
Definition stale : array_struct Z :=
  mk_array (Some [5; 6; 7]) 77 88 99 OUT_OF_BOUNDS.

(** A full one-slot array. *)
Definition full1 : array_struct Z := mk_array (Some [7]) 1 1 1 OK_ERROR.

(** A full four-slot array whose floor is one slot. *)
Definition full4 : array_struct Z :=
  mk_array (Some [10; 20; 30; 40]) 4 4 1 OK_ERROR.

(** Three elements in a block of four, with a floor of two. *)
Definition three_of_four : array_struct Z :=
  mk_array (Some [10; 20; 30; 0]) 4 3 2 OK_ERROR.

(** ** array_free *)

(** [if (buf != NULL) free(buf);] The macro writes no field; what it does
    is hand a block to [free], or not: the result is that block, [None]
    when [free] is not called. *)
Definition array_free {T : Type} (a : array_struct T) : option (list T) :=
  match buf a with
  | Some block => Some block
  | None => None
  end.

(** ** Replies that grant a request *)

(** The reply [r] answers a reallocation to [bytes] bytes with a block,
    whatever block is passed in. *)
Definition grants {T : Type} `{CType T} (r : @alloc_reply T) (bytes : Z) : Prop :=
  forall p : option (list T), is_Some (realloc r p bytes).

(** * Properties *)

(** ** Arithmetic on 64 bits *)

Lemma wrap64_small z : 0 <= z < 2 ^ 64 → wrap64 z = z.
Proof. intros Hz. unfold wrap64. apply Z.mod_small. exact Hz. Qed.

Lemma wrap64_range z : 0 <= wrap64 z < 2 ^ 64.
Proof. unfold wrap64. apply Z.mod_pos_bound. lia. Qed.

Lemma wrap64_succ_pred z : 0 <= z < 2 ^ 64 → wrap64 (wrap64 (z + 1) - 1) = z.
Proof.
  intros Hz. destruct (decide (z + 1 < 2 ^ 64)) as [Hlt|Hge].
  - rewrite (wrap64_small (z + 1)) by lia.
    replace (z + 1 - 1) with z by lia. by apply wrap64_small.
  - assert (z = 2 ^ 64 - 1) as -> by lia. reflexivity.
Qed.

(** ** Logs *)

Lemma all_granted_nil : all_granted [].
Proof. constructor. Qed.

Lemma all_granted_one bytes : all_granted [Granted bytes].
Proof. by repeat constructor. Qed.

Lemma not_all_granted_refused bytes log : ¬ all_granted (Refused bytes :: log).
Proof. intros Hall. by inversion Hall. Qed.

Lemma all_granted_app log log' :
  all_granted (log ++ log') ↔ all_granted log ∧ all_granted log'.
Proof. apply Forall_app. Qed.

#[local] Hint Resolve all_granted_nil all_granted_one : core.

(** ** The sticky error flag *)

Section Sticky.
Context {T : Type} `{CType T}.

Lemma array_add_sticky r v (a : array_struct T) :
  error a ≠ OK_ERROR → array_add r v a = Normal a [].
Proof. intros He. unfold array_add. by destruct (decide (error a = OK_ERROR)). Qed.

Lemma array_add_index_sticky r i v (a : array_struct T) :
  error a ≠ OK_ERROR → array_add_index r i v a = Normal a [].
Proof.
  intros He. unfold array_add_index. by destruct (decide (error a = OK_ERROR)).
Qed.

Lemma array_set_sticky i v (a : array_struct T) :
  error a ≠ OK_ERROR → array_set i v a = Normal a [].
Proof. intros He. unfold array_set. by destruct (decide (error a = OK_ERROR)). Qed.

Lemma array_get_sticky i (a : array_struct T) :
  error a ≠ OK_ERROR → array_get i a = Normal (a, None) [].
Proof. intros He. unfold array_get. by destruct (decide (error a = OK_ERROR)). Qed.

Lemma array_remove_sticky r (a : array_struct T) :
  error a ≠ OK_ERROR → array_remove r a = Normal a [].
Proof. intros He. unfold array_remove. by destruct (decide (error a = OK_ERROR)). Qed.

Lemma array_remove_index_sticky r i (a : array_struct T) :
  error a ≠ OK_ERROR → array_remove_index r i a = Normal a [].
Proof.
  intros He. unfold array_remove_index. by destruct (decide (error a = OK_ERROR)).
Qed.

Lemma run_op_sticky r o (a : array_struct T) :
  error a ≠ OK_ERROR → run_op r o a = Normal a [].
Proof.
  intros He. destruct o; cbn [run_op].
  - by apply array_add_sticky.
  - by apply array_add_index_sticky.
  - by apply array_set_sticky.
  - by rewrite array_get_sticky.
  - by apply array_remove_sticky.
  - by apply array_remove_index_sticky.
Qed.

Lemma run_ops_sticky l (a : array_struct T) :
  error a ≠ OK_ERROR → run_ops l a = Normal a [].
Proof.
  intros He. induction l as [|[r o] l IH]; [done|].
  cbn [run_ops]. rewrite run_op_sticky by done.
  cbn [mbind exec_bind]. by rewrite IH.
Qed.

(** C5: once the error flag is not Ok, Append, InsertAt, SetAt, RemoveLast
    and RemoveAt (and GetAt, which then assigns no output) return the
    struct they were given, field for field, without a call to the
    allocator; Size() and ErrorState() still read the size and the flag;
    and no operation leaves the flag Ok. *)
Theorem error_flag_is_sticky r (a : array_struct T) :
  error a ≠ OK_ERROR →
  (∀ v, array_add r v a = Normal a []) ∧
  (∀ i v, array_add_index r i v a = Normal a []) ∧
  (∀ i v, array_set i v a = Normal a []) ∧
  array_remove r a = Normal a [] ∧
  (∀ i, array_remove_index r i a = Normal a []) ∧
  (∀ i, array_get i a = Normal (a, None) []) ∧
  array_size a = size a ∧
  array_error_state a = error a ∧
  (∀ o a' log, run_op r o a = Normal a' log → error a' ≠ OK_ERROR).
Proof.
  intros He. repeat split.
  - intros v. by apply array_add_sticky.
  - intros i v. by apply array_add_index_sticky.
  - intros i v. by apply array_set_sticky.
  - by apply array_remove_sticky.
  - intros i. by apply array_remove_index_sticky.
  - intros i. by apply array_get_sticky.
  - intros o a' log Hrun. rewrite run_op_sticky in Hrun by done. congruence.
Qed.

End Sticky.

Lemma error_flag_is_sticky_witness :
  error stale ≠ OK_ERROR ∧
  array_add grant 1 stale = Normal stale [] ∧
  array_remove grant stale = Normal stale [].
Proof.
  assert (error stale ≠ OK_ERROR) as He by (simpl; discriminate).
  split; [exact He|].
  destruct (error_flag_is_sticky grant stale He) as (Hadd & _ & _ & Hrem & _).
  split; [apply Hadd | exact Hrem].
Defined.

(** ** Insertion at the end is an append *)

Section InsertAtEnd.
Context {T : Type} `{CType T}.

Lemma shift_right_nothing (p : option (list T)) start index :
  start <= index → shift_right p start index = Normal p [].
Proof.
  intros Hle. unfold shift_right.
  replace (Z.to_nat (start - index)) with 0%nat by lia. reflexivity.
Qed.

Lemma add_index_checked_at_size v (a : array_struct T) :
  0 <= size a < 2 ^ 64 → add_index_checked (size a) v a = add_tail v a.
Proof.
  intros Hsz. unfold add_index_checked, add_tail.
  destruct (decide (0 <= size a ∧ size a <= size a)) as [_|Hno]; [|lia].
  cbn [size set_size buf].
  rewrite wrap64_succ_pred by done.
  rewrite shift_right_nothing by lia.
  cbn [mbind exec_bind].
  by destruct (store (buf a) (size a) v).
Qed.

(** C8: for every struct whose size is a 64-bit value, every value and
    every answer of the allocator, InsertAt at index [size] and Append end
    in the same outcome: same buffer, size, capacity, min_capacity and
    error, and the same call to the allocator, on the growth-failure path
    as well. *)
Theorem insert_at_size_is_append r v (a : array_struct T) :
  0 <= size a < 2 ^ 64 →
  array_add_index r (size a) v a = array_add r v a.
Proof.
  intros Hsz. unfold array_add_index, array_add.
  destruct (decide (error a = OK_ERROR)); [|done].
  destruct (decide (size a = capacity a)).
  - cbn [buf capacity set_capacity].
    destruct (call_realloc r (buf a) _) as [[temp|] log|]; [|done|done].
    cbn [mbind exec_bind].
    by rewrite <- add_index_checked_at_size.
  - by apply add_index_checked_at_size.
Qed.

End InsertAtEnd.

Lemma insert_at_size_is_append_witness :
  0 <= size full1 < 2 ^ 64 ∧
  array_add_index grant (size full1) 9 full1 = array_add grant 9 full1 ∧
  array_add_index AllocFail (size full1) 9 full1 = array_add AllocFail 9 full1.
Proof.
  assert (0 <= size full1 < 2 ^ 64) as Hsz by (simpl; lia).
  split; [exact Hsz|].
  split; apply (insert_at_size_is_append _ 9 full1 Hsz).
Defined.

(** ** Blocks, loads and stores *)

Section Blocks.
Context {T : Type} `{CType T}.

Lemma length_resize_block (junk : nat → T) n old :
  length (resize_block junk n old) = n.
Proof. unfold resize_block. by rewrite length_map, length_seq. Qed.

Lemma lookup_resize_block (junk : nat → T) n old (i : nat) :
  (i < n)%nat →
  resize_block junk n old !! i = Some (default (junk i) (old !! i)).
Proof.
  intros Hi. unfold resize_block.
  rewrite list_lookup_fmap, lookup_seq_lt by done. reflexivity.
Qed.

Lemma lookup_resize_block_old (junk : nat → T) n (old : list T) (i : nat) :
  (i < n)%nat → (i < length old)%nat →
  resize_block junk n old !! i = old !! i.
Proof.
  intros Hn Hold. rewrite lookup_resize_block by done.
  destruct (lookup_lt_is_Some_2 old i Hold) as [x Hx]. by rewrite Hx.
Qed.

Lemma take_resize_block (junk : nat → T) n (old : list T) (k : nat) :
  (k <= n)%nat → (k <= length old)%nat →
  take k (resize_block junk n old) = take k old.
Proof.
  intros Hn Hold. apply list_eq. intros i.
  destruct (decide (i < k)%nat) as [Hi|Hi].
  - rewrite !lookup_take_lt by done. apply lookup_resize_block_old; lia.
  - rewrite !lookup_take_ge by lia. reflexivity.
Qed.

Lemma realloc_Some r (p : option (list T)) bytes l' :
  realloc r p bytes = Some l' →
  bytes <= PTRDIFF_MAX ∧
  ∃ junk, r = AllocGrant junk ∧
          l' = resize_block junk (Z.to_nat (bytes / Z.pos sizeof)) (default [] p).
Proof.
  unfold realloc. destruct r as [|junk]; [done|].
  destruct (decide (bytes <= PTRDIFF_MAX)); [|done].
  intros [= <-]. eauto.
Qed.

Lemma realloc_slots r (p : option (list T)) n l' :
  0 <= n →
  realloc r p (Z.pos sizeof * n) = Some l' →
  Z.of_nat (length l') = n.
Proof.
  intros Hn Hre. apply realloc_Some in Hre as (_ & junk & _ & ->).
  rewrite length_resize_block.
  rewrite Z.mul_comm, Z.div_mul by lia. lia.
Qed.

(** What is in the old block and has a slot in the new one stays. *)
Lemma realloc_keeps r (l l' : list T) bytes (i : nat) :
  realloc r (Some l) bytes = Some l' →
  (i < length l)%nat → (i < length l')%nat → l' !! i = l !! i.
Proof.
  intros Hre Hi Hi'. apply realloc_Some in Hre as (_ & junk & _ & ->).
  rewrite length_resize_block in Hi'. by apply lookup_resize_block_old.
Qed.

(** Whether [realloc] fails depends on the reply and on the request, not
    on the block it is given. *)
Lemma realloc_fails_any_block r (p q : option (list T)) bytes :
  realloc r p bytes = None → realloc r q bytes = None.
Proof.
  unfold realloc. destruct r as [|junk]; [done|].
  by destruct (decide (bytes <= PTRDIFF_MAX)).
Qed.

Lemma calloc_Some r n (l : list T) :
  calloc r n = Some l →
  Z.pos sizeof * n <= PTRDIFF_MAX ∧ l = replicate (Z.to_nat n) zero.
Proof.
  unfold calloc. destruct r as [|junk]; [done|].
  destruct (decide (Z.pos sizeof * n <= PTRDIFF_MAX)); [|done].
  by intros [= <-].
Qed.

Lemma call_realloc_Some r (p : option (list T)) bytes temp :
  realloc r p bytes = Some temp →
  call_realloc r p bytes = Normal (Some temp) [Granted bytes].
Proof. intros Hre. unfold call_realloc. by rewrite Hre. Qed.

Lemma call_realloc_None r (p : option (list T)) bytes :
  realloc r p bytes = None →
  call_realloc r p bytes = Normal None [Refused bytes].
Proof. intros Hre. unfold call_realloc. by rewrite Hre. Qed.

Lemma load_Some (l : list T) i :
  0 <= i < Z.of_nat (length l) →
  ∃ x, l !! Z.to_nat i = Some x ∧ load (Some l) i = Normal x [].
Proof.
  intros Hi. unfold load. destruct (decide (0 <= i)); [|lia].
  destruct (lookup_lt_is_Some_2 l (Z.to_nat i)) as [x Hx]; [lia|].
  exists x. by rewrite Hx.
Qed.

Lemma store_Some (l : list T) i x :
  0 <= i < Z.of_nat (length l) →
  store (Some l) i x = Normal (Some (<[Z.to_nat i := x]> l)) [].
Proof.
  intros Hi. unfold store.
  by destruct (decide (0 <= i < Z.of_nat (length l))).
Qed.

(** The right shift of [array_add_index] stays inside a block that has the
    slot [start], ends, keeps the block's length and calls no allocator. *)
Lemma shift_right_loop_total fuel (l : list T) i index :
  0 <= index → i < Z.of_nat (length l) → i < 2 ^ 64 →
  ∃ l', shift_right_loop fuel (Some l) i index = Normal (Some l') [] ∧
        length l' = length l.
Proof.
  revert l i. induction fuel as [|fuel IH]; intros l i Hidx Hi Hi64.
  - exists l. done.
  - cbn [shift_right_loop].
    destruct (decide (index < i)) as [Hlt|Hge]; [|by exists l].
    rewrite (wrap64_small (i - 1)) by lia.
    destruct (load_Some l (i - 1)) as (x & _ & ->); [lia|].
    cbn [mbind exec_bind]. rewrite store_Some by lia. cbn [mbind exec_bind].
    destruct (IH (<[Z.to_nat i := x]> l) (i - 1)) as (l' & -> & Hlen);
      [done|rewrite length_insert; lia|lia|].
    exists l'. split; [done|]. by rewrite Hlen, length_insert.
Qed.

(** The left shift of [array_remove_index], likewise, for a block that
    has the slot [bound]. *)
Lemma shift_left_loop_total fuel (l : list T) i bound :
  0 <= i → bound < Z.of_nat (length l) → bound < 2 ^ 64 →
  ∃ l', shift_left_loop fuel (Some l) i bound = Normal (Some l') [] ∧
        length l' = length l.
Proof.
  revert l i. induction fuel as [|fuel IH]; intros l i Hi Hb Hb64.
  - exists l. done.
  - cbn [shift_left_loop].
    destruct (decide (i < bound)) as [Hlt|Hge]; [|by exists l].
    rewrite (wrap64_small (i + 1)) by lia.
    destruct (load_Some l (i + 1)) as (x & _ & ->); [lia|].
    cbn [mbind exec_bind]. rewrite store_Some by lia. cbn [mbind exec_bind].
    destruct (IH (<[Z.to_nat i := x]> l) (i + 1)) as (l' & -> & Hlen);
      [lia|rewrite length_insert; lia|lia|].
    exists l'. split; [done|]. by rewrite Hlen, length_insert.
Qed.

(** The fuel is the number of rounds: each loop satisfies the equation
    of the [for] statement it embeds. *)
Lemma shift_right_unfold (p : option (list T)) i index :
  0 <= index → i < 2 ^ 64 →
  shift_right p i index =
    if decide (index < i)
    then x ← load p (i - 1); p' ← store p i x; shift_right p' (i - 1) index
    else mret p.
Proof.
  intros Hidx Hi. unfold shift_right.
  destruct (decide (index < i)) as [Hlt|Hge].
  - replace (Z.to_nat (i - index)) with (S (Z.to_nat (i - 1 - index))) by lia.
    cbn [shift_right_loop].
    destruct (decide (index < i)); [|lia].
    by rewrite (wrap64_small (i - 1)) by lia.
  - by replace (Z.to_nat (i - index)) with 0%nat by lia.
Qed.

Lemma shift_left_unfold (p : option (list T)) i bound :
  0 <= i → bound < 2 ^ 64 →
  shift_left p i bound =
    if decide (i < bound)
    then x ← load p (i + 1); p' ← store p i x; shift_left p' (i + 1) bound
    else mret p.
Proof.
  intros Hi Hb. unfold shift_left.
  destruct (decide (i < bound)) as [Hlt|Hge].
  - replace (Z.to_nat (bound - i)) with (S (Z.to_nat (bound - (i + 1)))) by lia.
    cbn [shift_left_loop].
    destruct (decide (i < bound)); [|lia].
    by rewrite (wrap64_small (i + 1)) by lia.
  - by replace (Z.to_nat (bound - i)) with 0%nat by lia.
Qed.

End Blocks.

(** The scenario of the documentation: capacity 2, three appends (the
    third grows the block to 4), removal at index 1 (which shrinks it back
    to 2), and two reads. *)
Example init_add_remove_get :
  (a ← array_init grant 2 stale;
   a ← array_add grant 10 a;
   a ← array_add grant 20 a;
   a ← array_add grant 30 a;
   a ← array_remove_index grant 1 a;
   x ← array_get 0 a;
   y ← array_get 1 a;
   mret (x.2, y.2, array_size a, array_error_state a, capacity a))
  = Normal (Some 10, Some 30, 2, OK_ERROR, 2)
           [Granted 8; Granted 16; Granted 8].
Proof. reflexivity. Qed.

(** [array_init] on a struct whose flag is set: a second construction
    clears the flag. *)
Example array_init_clears_flag :
  error stale = OUT_OF_BOUNDS ∧
  array_init grant 2 stale =
    Normal (mk_array (Some [0; 0]) 2 0 2 OK_ERROR) [Granted 8].
Proof. split; reflexivity. Qed.

(** Insertion in the middle shifts the tail to the right. *)
Example insert_in_the_middle :
  array_add_index grant 1 15 (mk_array (Some [10; 20; 30; 0]) 4 3 2 OK_ERROR)
  = Normal (mk_array (Some [10; 15; 20; 30]) 4 4 2 OK_ERROR) [].
Proof. reflexivity. Qed.

(** ** Failure of an allocation in Initialize and in Append *)

Section AllocationFailure.
Context {T : Type} `{CType T}.

(** C10, as the code has it: a failed Initialize assigns the null pointer
    to [buf] and OutOfMemory to [error], and nothing else: size, capacity
    and min_capacity keep the values the struct held before the call. *)
Theorem array_init_failure_frame r init_capacity (a : array_struct T) :
  calloc r init_capacity = None →
  array_init r init_capacity a =
    Normal (mk_array None (capacity a) (size a) (min_capacity a) OUT_OF_MEM)
           [Refused (Z.pos sizeof * init_capacity)].
Proof.
  intros Hfail. unfold array_init, call_calloc. by rewrite Hfail.
Qed.

(** C1, as the code has it: when Append has to grow and the reallocation
    fails, error becomes OutOfMemory, the buffer, size and min_capacity are
    the old ones, and capacity is left at the doubled value. *)
Theorem array_add_growth_failure r v (a : array_struct T) :
  error a = OK_ERROR →
  size a = capacity a →
  realloc r (buf a) (wrap64 (Z.pos sizeof * wrap64 (capacity a * 2))) = None →
  array_add r v a =
    Normal (mk_array (buf a) (wrap64 (capacity a * 2)) (size a)
                     (min_capacity a) OUT_OF_MEM)
           [Refused (wrap64 (Z.pos sizeof * wrap64 (capacity a * 2)))].
Proof.
  intros He Hfull Hfail. unfold array_add.
  destruct (decide (error a = OK_ERROR)); [|done].
  destruct (decide (size a = capacity a)); [|done].
  cbn [buf capacity set_capacity]. by rewrite call_realloc_None.
Qed.

End AllocationFailure.

Lemma array_init_failure_frame_witness :
  calloc AllocFail 4 = None ∧
  array_init AllocFail 4 stale =
    Normal (mk_array None 77 88 99 OUT_OF_MEM) [Refused 16].
Proof.
  split; [reflexivity|].
  exact (array_init_failure_frame AllocFail 4 stale eq_refl).
Defined.

(** C10, as stated, fails: the failed Initialize also overwrites [buf]. *)
Lemma array_init_failure_writes_buf :
  calloc AllocFail 4 = None ∧
  buf stale = Some [5; 6; 7] ∧
  ∃ a', array_init AllocFail 4 stale = Normal a' [Refused 16] ∧
        buf a' = None ∧
        a' ≠ set_error stale OUT_OF_MEM.
Proof.
  split; [reflexivity|]. split; [reflexivity|].
  eexists. split; [reflexivity|]. split; [reflexivity|]. discriminate.
Qed.

Lemma array_add_growth_failure_witness :
  error full1 = OK_ERROR ∧ size full1 = capacity full1 ∧
  realloc AllocFail (buf full1)
    (wrap64 (Z.pos sizeof * wrap64 (capacity full1 * 2))) = None ∧
  array_add AllocFail 9 full1 =
    Normal (mk_array (Some [7]) 2 1 1 OUT_OF_MEM) [Refused 8].
Proof.
  split; [reflexivity|]. split; [reflexivity|]. split; [reflexivity|].
  exact (array_add_growth_failure AllocFail 9 full1 eq_refl eq_refl eq_refl).
Defined.

(** C1, as stated, fails: after the failed growth the capacity is not the
    one before the call. *)
Lemma array_add_growth_failure_changes_capacity :
  error full1 = OK_ERROR ∧ size full1 = capacity full1 ∧
  realloc AllocFail (buf full1)
    (wrap64 (Z.pos sizeof * wrap64 (capacity full1 * 2))) = None ∧
  ∃ a', array_add AllocFail 9 full1 = Normal a' [Refused 8] ∧
        error a' = OUT_OF_MEM ∧
        capacity full1 = 1 ∧ capacity a' = 2 ∧
        a' ≠ set_error full1 OUT_OF_MEM.
Proof.
  split; [reflexivity|]. split; [reflexivity|]. split; [reflexivity|].
  eexists. split; [reflexivity|]. repeat split. discriminate.
Qed.

(** ** One operation on a consistent struct *)

Section Steps.
Context {T : Type} `{CType T}.

Lemma consistent_capacity_pos (a : array_struct T) :
  consistent a → 1 <= capacity a.
Proof.
  intros [_ _ Hmin [k Hk] _ _].
  assert (0 < 2 ^ Z.of_nat k) by (apply Z.pow_pos_nonneg; lia).
  nia.
Qed.

Lemma consistent_capacity_small (a : array_struct T) :
  consistent a → capacity a <= 2 ^ 63 - 1.
Proof.
  intros Hc. pose proof (consistent_capacity_pos a Hc).
  destruct Hc as [_ _ _ _ Hfit _]. unfold PTRDIFF_MAX in Hfit. nia.
Qed.

Lemma consistent_set_error (a : array_struct T) e :
  consistent a → e ≠ OUT_OF_MEM → consistent (set_error a e).
Proof. intros [] He. by split. Qed.

Lemma take_succ_insert (l : list T) (n : nat) v :
  (n < length l)%nat → take (S n) (<[n := v]> l) = take n l ++ [v].
Proof.
  intros Hn.
  rewrite (take_S_r _ n v) by (by apply list_lookup_insert_eq).
  by rewrite take_insert_ge.
Qed.

(** [array_init] always returns. *)
Lemma array_init_returns r c (a0 : array_struct T) :
  ∃ a log, array_init r c a0 = Normal a log.
Proof.
  unfold array_init, call_calloc. destruct (calloc r c); cbn; eauto.
Qed.

(** [array_init] when its allocation is granted. *)
Lemma array_init_success r c (a0 a : array_struct T) log :
  array_init r c a0 = Normal a log → all_granted log →
  a = mk_array (Some (replicate (Z.to_nat c) zero)) c 0 c OK_ERROR ∧
  Z.pos sizeof * c <= PTRDIFF_MAX ∧
  log = [Granted (Z.pos sizeof * c)].
Proof.
  unfold array_init, call_calloc.
  destruct (calloc r c) as [l|] eqn:Hcal; cbn.
  - intros [= <- <-] _. apply calloc_Some in Hcal as [Hfit ->]. done.
  - intros [= <- <-] Hall. by apply not_all_granted_refused in Hall.
Qed.

Lemma array_init_consistent r c (a0 a : array_struct T) log :
  1 <= c → array_init r c a0 = Normal a log → all_granted log →
  consistent a.
Proof.
  intros Hc Hrun Hall.
  destruct (array_init_success r c a0 a log Hrun Hall) as (-> & Hfit & _).
  split; cbn.
  - eexists. split; [done|]. rewrite length_replicate. lia.
  - lia.
  - lia.
  - exists 0%nat. cbn. lia.
  - done.
  - done.
Qed.

(** [buf[size++] = val] inside the block. *)
Lemma add_tail_inside v (a : array_struct T) l :
  buf a = Some l → 0 <= size a < Z.of_nat (length l) → size a + 1 < 2 ^ 64 →
  add_tail v a =
    Normal (mk_array (Some (<[Z.to_nat (size a) := v]> l)) (capacity a)
                     (size a + 1) (min_capacity a) (error a)) [].
Proof.
  intros Hb Hsz H64. unfold add_tail. rewrite Hb, store_Some by done.
  rewrite wrap64_small by lia. reflexivity.
Qed.

(** Append on a consistent struct: the call returns; either the growth
    was refused, or the value is the new last element and the capacity
    doubled, with one granted reallocation, exactly if the array was
    full. *)
Lemma array_add_step r v (a : array_struct T) :
  consistent a → error a = OK_ERROR →
  ∃ a' log, array_add r v a = Normal a' log ∧
    ((error a' = OUT_OF_MEM ∧ ¬ all_granted log) ∨
     (all_granted log ∧ error a' = OK_ERROR ∧ consistent a' ∧
      size a' = size a + 1 ∧
      min_capacity a' = min_capacity a ∧
      capacity a' =
        (if decide (size a = capacity a) then capacity a * 2 else capacity a) ∧
      log =
        (if decide (size a = capacity a)
         then [Granted (Z.pos sizeof * (capacity a * 2))] else []) ∧
      contents a' = contents a ++ [v])).
Proof.
  intros Hc He.
  pose proof (consistent_capacity_pos a Hc) as Hpos.
  pose proof (consistent_capacity_small a Hc) as Hsmall.
  destruct Hc as [(l & Hb & Hlen) Hsz Hmin [k Hk] Hfit Hno].
  unfold PTRDIFF_MAX in Hfit.
  unfold array_add.
  destruct (decide (error a = OK_ERROR)); [|done].
  destruct (decide (size a = capacity a)) as [Hfull|Hroom].
  - cbn [buf capacity set_capacity].
    rewrite (wrap64_small (capacity a * 2)) by lia.
    rewrite wrap64_small by nia.
    destruct (realloc r (buf a) (Z.pos sizeof * (capacity a * 2)))
      as [temp|] eqn:Hre.
    + rewrite (call_realloc_Some _ _ _ _ Hre). cbn [mbind exec_bind].
      pose proof Hre as Hre'.
      apply realloc_slots in Hre' as Hlen'; [|lia].
      apply realloc_Some in Hre as (Hfit' & junk & _ & Htemp).
      rewrite (add_tail_inside v _ temp) by (cbn; done || lia).
      eexists _, _. split; [done|]. right. cbn.
      split; [auto|]. split; [done|].
      split; [|split; [done|split; [done|split; [done|split; [done|]]]]].
      * split; cbn.
        -- eexists. split; [done|]. rewrite length_insert. lia.
        -- lia.
        -- done.
        -- exists (S k). rewrite Hk, Nat2Z.inj_succ, Z.pow_succ_r by lia. lia.
        -- exact Hfit'.
        -- by rewrite He.
      * unfold contents. cbn.
        replace (Z.to_nat (size a + 1)) with (S (Z.to_nat (size a))) by lia.
        rewrite take_succ_insert by lia.
        rewrite Htemp, Hb. cbn.
        rewrite take_resize_block; [done| |lia].
        rewrite Z.mul_comm, Z.div_mul by lia. lia.
    + rewrite (call_realloc_None _ _ _ Hre). cbn.
      eexists _, _. split; [done|]. left. split; [done|].
      apply not_all_granted_refused.
  - rewrite (add_tail_inside v _ l) by (done || lia).
    eexists _, _. split; [done|]. right. cbn.
    split; [auto|]. split; [done|].
    split; [|split; [done|split; [done|split; [done|split; [done|]]]]].
    + split; cbn.
      * eexists. split; [done|]. rewrite length_insert. lia.
      * lia.
      * done.
      * by exists k.
      * done.
      * done.
    + unfold contents. cbn.
      replace (Z.to_nat (size a + 1)) with (S (Z.to_nat (size a))) by lia.
      rewrite take_succ_insert by lia. by rewrite Hb.
Qed.

(** The struct after a granted growth. *)
Lemma grown_consistent r (a : array_struct T) temp :
  consistent a →
  realloc r (buf a) (wrap64 (Z.pos sizeof * wrap64 (capacity a * 2))) = Some temp →
  wrap64 (capacity a * 2) = capacity a * 2 ∧
  consistent (set_buf (set_capacity a (wrap64 (capacity a * 2))) (Some temp)).
Proof.
  intros Hc.
  pose proof (consistent_capacity_pos a Hc) as Hpos.
  pose proof (consistent_capacity_small a Hc) as Hsmall.
  destruct Hc as [(l & Hb & Hlen) Hsz Hmin [k Hk] Hfit Hno].
  unfold PTRDIFF_MAX in Hfit.
  rewrite (wrap64_small (capacity a * 2)) by lia.
  rewrite wrap64_small by nia.
  intros Hre. pose proof Hre as Hre'.
  apply realloc_slots in Hre' as Hlen'; [|lia].
  apply realloc_Some in Hre as (Hfit' & junk & _ & Htemp).
  split; [done|]. split; cbn.
  - eexists. split; [done|]. lia.
  - lia.
  - done.
  - exists (S k). rewrite Hk, Nat2Z.inj_succ, Z.pow_succ_r by lia. lia.
  - exact Hfit'.
  - done.
Qed.

(** The bounds test of [array_add_index] and the shift, on a struct with
    a free slot. *)
Lemma add_index_checked_step index v (a : array_struct T) :
  consistent a → size a < capacity a →
  ∃ a', add_index_checked index v a = Normal a' [] ∧ consistent a'.
Proof.
  intros Hc Hroom.
  pose proof (consistent_capacity_small a Hc) as Hsmall.
  pose proof Hc as [(l & Hb & Hlen) Hsz Hmin Hpow Hfit Hno].
  unfold add_index_checked.
  destruct (decide (0 <= index ∧ index <= size a)) as [Hin|Hout].
  - cbn [buf size set_size].
    rewrite (wrap64_small (size a + 1)) by lia.
    replace (size a + 1 - 1) with (size a) by lia.
    rewrite (wrap64_small (size a)) by lia.
    rewrite Hb. unfold shift_right.
    destruct (shift_right_loop_total (Z.to_nat (size a - index)) l (size a) index)
      as (l' & -> & Hlen'); [lia|lia|lia|].
    cbn [mbind exec_bind]. rewrite store_Some by lia.
    eexists. split; [done|].
    split; cbn; try done.
    + eexists. split; [done|]. rewrite length_insert. lia.
    + lia.
  - eexists. split; [done|]. by apply consistent_set_error.
Qed.

Lemma array_add_index_step r index v (a : array_struct T) :
  consistent a → error a = OK_ERROR →
  ∃ a' log, array_add_index r index v a = Normal a' log ∧
    ((error a' = OUT_OF_MEM ∧ ¬ all_granted log) ∨
     (all_granted log ∧ consistent a')).
Proof.
  intros Hc He. unfold array_add_index.
  destruct (decide (error a = OK_ERROR)); [|done].
  destruct (decide (size a = capacity a)) as [Hfull|Hroom].
  - cbn [buf capacity set_capacity].
    destruct (realloc r (buf a) (wrap64 (Z.pos sizeof * wrap64 (capacity a * 2))))
      as [temp|] eqn:Hre.
    + rewrite (call_realloc_Some _ _ _ _ Hre). cbn [mbind exec_bind].
      destruct (grown_consistent r a temp Hc Hre) as (Hcap & Hc').
      pose proof (consistent_capacity_pos a Hc) as Hpos.
      destruct (add_index_checked_step index v _ Hc') as (a' & -> & Hc'').
      { cbn. rewrite Hcap. lia. }
      eexists _, _. split; [done|]. right. split; [cbn; auto|done].
    + rewrite (call_realloc_None _ _ _ Hre). cbn.
      eexists _, _. split; [done|]. left. split; [done|].
      apply not_all_granted_refused.
  - destruct (add_index_checked_step index v a Hc) as (a' & -> & Hc').
    { destruct Hc as [_ Hsz _ _ _ _]. lia. }
    eexists _, _. split; [done|]. right. auto.
Qed.

Lemma array_set_step index v (a : array_struct T) :
  consistent a →
  ∃ a', array_set index v a = Normal a' [] ∧ consistent a'.
Proof.
  intros Hc. unfold array_set.
  destruct (decide (error a = OK_ERROR)); [|by eexists].
  pose proof Hc as [(l & Hb & Hlen) Hsz Hmin Hpow Hfit Hno].
  destruct (decide (0 <= index ∧ index < size a)) as [Hin|Hout].
  - rewrite Hb, store_Some by lia.
    eexists. split; [done|]. split; cbn; try done.
    eexists. split; [done|]. rewrite length_insert. lia.
  - eexists. split; [done|]. by apply consistent_set_error.
Qed.

(** Reading inside [0, size) returns the element and changes nothing. *)
Lemma array_get_inside index (a : array_struct T) :
  consistent a → error a = OK_ERROR → 0 <= index < size a →
  ∃ x, contents a !! Z.to_nat index = Some x ∧
       array_get index a = Normal (a, Some x) [].
Proof.
  intros [(l & Hb & Hlen) Hsz _ _ _ _] He Hin. unfold array_get.
  destruct (decide (error a = OK_ERROR)); [|done].
  destruct (decide (0 <= index ∧ index < size a)); [|lia].
  rewrite Hb. destruct (load_Some l index) as (x & Hx & ->); [lia|].
  exists x. split; [|done].
  unfold contents. rewrite Hb. cbn. rewrite lookup_take_lt by lia. done.
Qed.

Lemma array_get_step index (a : array_struct T) :
  consistent a →
  ∃ res, array_get index a = Normal res [] ∧ consistent res.1.
Proof.
  intros Hc. destruct (decide (error a = OK_ERROR)) as [He|He].
  - destruct (decide (0 <= index ∧ index < size a)) as [Hin|Hout].
    + destruct (array_get_inside index a Hc He Hin) as (x & _ & ->). by eexists.
    + unfold array_get. destruct (decide (error a = OK_ERROR)); [|done].
      destruct (decide (0 <= index ∧ index < size a)); [done|].
      eexists. split; [done|]. by apply consistent_set_error.
  - rewrite array_get_sticky by done. by eexists.
Qed.

(** The decrement and the shrink test of the two removals, on any struct
    with a non-zero 64-bit size: the three ways out. *)
Lemma shrink_after_decrement_cases r (a : array_struct T) :
  0 < size a <= 2 ^ 64 →
  let bytes := wrap64 (Z.pos sizeof * (capacity a / 2)) in
  if decide (size a - 1 = capacity a / 2 ∧ capacity a ≠ min_capacity a)
  then match realloc r (buf a) bytes with
       | Some temp =>
           shrink_after_decrement r a =
             Normal (mk_array (Some temp) (capacity a / 2) (size a - 1)
                              (min_capacity a) (error a)) [Granted bytes]
       | None =>
           shrink_after_decrement r a =
             Normal (mk_array (buf a) (capacity a / 2) (size a - 1)
                              (min_capacity a) OUT_OF_MEM) [Refused bytes]
       end
  else shrink_after_decrement r a =
         Normal (mk_array (buf a) (capacity a) (size a - 1)
                          (min_capacity a) (error a)) [].
Proof.
  intros Hsz. cbn zeta. unfold shrink_after_decrement.
  cbn [size capacity min_capacity buf set_size set_capacity].
  rewrite (wrap64_small (size a - 1)) by lia.
  destruct (decide (size a - 1 = capacity a / 2 ∧ capacity a ≠ min_capacity a))
    as [Hshrink|Hkeep]; [|done].
  destruct (realloc r (buf a) _) as [temp|] eqn:Hre.
  - by rewrite (call_realloc_Some _ _ _ _ Hre).
  - by rewrite (call_realloc_None _ _ _ Hre).
Qed.

Lemma shrink_after_decrement_step r (a : array_struct T) :
  consistent a → 0 < size a →
  ∃ a' log, shrink_after_decrement r a = Normal a' log ∧
    ((error a' = OUT_OF_MEM ∧ ¬ all_granted log) ∨
     (all_granted log ∧ consistent a')).
Proof.
  intros Hc Hsz.
  pose proof (consistent_capacity_pos a Hc) as Hpos.
  pose proof (consistent_capacity_small a Hc) as Hsmall.
  destruct Hc as [(l & Hb & Hlen) Hsize Hmin [k Hk] Hfit Hno].
  unfold PTRDIFF_MAX in Hfit.
  pose proof (shrink_after_decrement_cases r a) as Hcases.
  cbn zeta in Hcases.
  destruct (decide (size a - 1 = capacity a / 2 ∧ capacity a ≠ min_capacity a))
    as [[Hhalf Hne]|Hkeep].
  - destruct k as [|k]; [cbn in Hk; lia|].
    rewrite Nat2Z.inj_succ, Z.pow_succ_r in Hk by lia.
    assert (capacity a / 2 = min_capacity a * 2 ^ Z.of_nat k) as Hdiv.
    { rewrite Hk.
      replace (min_capacity a * (2 * 2 ^ Z.of_nat k))
        with (min_capacity a * 2 ^ Z.of_nat k * 2) by lia.
      by rewrite Z.div_mul by lia. }
    assert (0 < 2 ^ Z.of_nat k) by (apply Z.pow_pos_nonneg; lia).
    assert (0 <= capacity a / 2 <= capacity a) as Hhalf_le by nia.
    rewrite wrap64_small in Hcases by nia.
    destruct (realloc r (buf a) _) as [temp|] eqn:Hre.
    + rewrite Hcases by lia. eexists _, _. split; [done|]. right.
      split; [auto|].
      pose proof Hre as Hre'.
      apply realloc_slots in Hre' as Hlen'; [|lia].
      apply realloc_Some in Hre as (Hfit' & _).
      split; cbn.
      * eexists. split; [done|]. done.
      * lia.
      * done.
      * by exists k.
      * exact Hfit'.
      * done.
    + rewrite Hcases by lia. eexists _, _. split; [done|]. left.
      split; [done|]. apply not_all_granted_refused.
  - rewrite Hcases by lia. eexists _, _. split; [done|]. right.
    split; [auto|]. split; cbn.
    + eauto.
    + lia.
    + done.
    + by exists k.
    + done.
    + done.
Qed.

Lemma array_remove_step r (a : array_struct T) :
  consistent a →
  ∃ a' log, array_remove r a = Normal a' log ∧
    ((error a' = OUT_OF_MEM ∧ ¬ all_granted log) ∨
     (all_granted log ∧ consistent a')).
Proof.
  intros Hc. unfold array_remove.
  destruct (decide (error a = OK_ERROR)); [|by eauto 10].
  destruct (decide (size a > 0)).
  - apply shrink_after_decrement_step; [done|lia].
  - eexists _, _. split; [done|]. right. split; [auto|].
    by apply consistent_set_error.
Qed.

Lemma array_remove_index_step r index (a : array_struct T) :
  consistent a →
  ∃ a' log, array_remove_index r index a = Normal a' log ∧
    ((error a' = OUT_OF_MEM ∧ ¬ all_granted log) ∨
     (all_granted log ∧ consistent a')).
Proof.
  intros Hc. unfold array_remove_index.
  destruct (decide (error a = OK_ERROR)); [|by eauto 10].
  destruct (decide (size a > 0 ∧ 0 <= index ∧ index < size a)) as [Hin|Hout].
  - pose proof (consistent_capacity_small a Hc) as Hsmall.
    pose proof Hc as [(l & Hb & Hlen) Hsize Hmin Hpow Hfit Hno].
    rewrite Hb, (wrap64_small (size a - 1)) by lia.
    unfold shift_left.
    destruct (shift_left_loop_total (Z.to_nat (size a - 1 - index)) l index
                (size a - 1)) as (l' & -> & Hlen'); [lia|lia|lia|].
    cbn [mbind exec_bind].
    destruct (shrink_after_decrement_step r (set_buf a (Some l')))
      as (a' & log & -> & Hres).
    + split; cbn; try done. eexists. split; [done|]. lia.
    + cbn. lia.
    + by eexists _, _.
  - eexists _, _. split; [done|]. right. split; [auto|].
    by apply consistent_set_error.
Qed.

(** Every operation returns on a consistent struct: no access outside the
    block. Its flag is OutOfMemory exactly when the allocation it asked
    for was refused; otherwise the struct it returns is consistent. *)
Lemma run_op_step r o (a : array_struct T) :
  consistent a →
  ∃ a' log, run_op r o a = Normal a' log ∧
    ((error a' = OUT_OF_MEM ∧ ¬ all_granted log) ∨
     (all_granted log ∧ consistent a')).
Proof.
  intros Hc. destruct (decide (error a = OK_ERROR)) as [He|He].
  - destruct o as [v|i v|i v|i| |i]; cbn [run_op].
    + destruct (array_add_step r v a Hc He)
        as (a' & log & -> & [Hoom|(Hall & _ & Hc' & _)]); eauto 10.
    + by apply array_add_index_step.
    + destruct (array_set_step i v a Hc) as (a' & -> & Hc'). eauto 10.
    + destruct (array_get_step i a Hc) as (res & -> & Hc'). cbn. eauto 10.
    + by apply array_remove_step.
    + by apply array_remove_index_step.
  - rewrite run_op_sticky by done. eauto 10.
Qed.

Lemma run_op_out_of_mem r o (a a' : array_struct T) log :
  consistent a → run_op r o a = Normal a' log →
  error a' = OUT_OF_MEM ↔ ¬ all_granted log.
Proof.
  intros Hc Hrun.
  destruct (run_op_step r o a Hc) as (a'' & log' & Hrun' & Hcases).
  rewrite Hrun in Hrun'. injection Hrun' as <- <-.
  destruct Hcases as [[Hoom Hnot]|[Hall Hc']]; [done|].
  split; [|done]. intros Hoom. by destruct Hc'.
Qed.

Lemma reachable_consistent (a : array_struct T) : reachable a → consistent a.
Proof.
  induction 1 as [r c a0 a log Hc Hrun Hall|r o a a' log Hreach IH Hrun Hall].
  - by eapply array_init_consistent.
  - destruct (run_op_step r o a IH) as (a'' & log' & Hrun' & Hcases).
    rewrite Hrun in Hrun'. injection Hrun' as <- <-.
    by destruct Hcases as [[_ Hnot]|[_ Hc']].
Qed.

(** From a reachable state every operation returns, whatever the
    allocator answers. *)
Lemma reachable_progress r o (a : array_struct T) :
  reachable a → ∃ a' log, run_op r o a = Normal a' log.
Proof.
  intros Hreach. apply reachable_consistent in Hreach.
  destruct (run_op_step r o a Hreach) as (a' & log & Hrun & _). eauto.
Qed.

End Steps.

(** ** The capacity invariant *)

Section Invariant.
Context {T : Type} `{CType T}.

(** C3: in every state reachable from a successful Initialize of at least
    one slot through operations none of whose allocations fails, capacity
    is at least max(size, min_capacity) and is min_capacity times a power
    of two. *)
Theorem reachable_capacity_invariant (a : array_struct T) :
  reachable a →
  Z.max (size a) (min_capacity a) <= capacity a ∧
  ∃ k : Z, 0 <= k ∧ capacity a = min_capacity a * 2 ^ k.
Proof.
  intros Hreach. apply reachable_consistent in Hreach.
  destruct Hreach as [_ Hsz Hmin [k Hk] _ _].
  assert (0 < 2 ^ Z.of_nat k) by (apply Z.pow_pos_nonneg; lia).
  split.
  - apply Z.max_lub; [lia|nia].
  - exists (Z.of_nat k). split; [lia|done].
Qed.

End Invariant.

Lemma reachable_capacity_invariant_witness :
  reachable (mk_array (Some [10; 20]) 2 2 1 OK_ERROR) ∧
  Z.max 2 1 <= 2 ∧ ∃ k : Z, 0 <= k ∧ 2 = 1 * 2 ^ k.
Proof.
  assert (reachable (mk_array (Some [10; 20]) 2 2 1 OK_ERROR)) as Hreach.
  { apply (reachable_step grant (Append 20) (mk_array (Some [10]) 1 1 1 OK_ERROR)
             _ [Granted 8]).
    - apply (reachable_step grant (Append 10) (mk_array (Some [0]) 1 0 1 OK_ERROR)
               _ []).
      + apply (reachable_init grant 1 stale _ [Granted 4]).
        * lia.
        * reflexivity.
        * apply all_granted_one.
      + reflexivity.
      + apply all_granted_nil.
    - reflexivity.
    - apply all_granted_one. }
  split; [exact Hreach|].
  exact (reachable_capacity_invariant _ Hreach).
Defined.

(** ** Failure of the shrink in the two removals *)

Section ShrinkFailure.
Context {T : Type} `{CType T}.

(** C9: from error = Ok and a non-zero size, when the decremented size is
    capacity / 2, capacity is not min_capacity and the shrink reallocation
    fails, RemoveLast ends with error = OutOfMemory and the decremented
    size; so does RemoveAt at a valid index (on a block that holds the
    [size] elements it shifts). *)
Theorem shrink_failure_keeps_decrement r (a : array_struct T) :
  error a = OK_ERROR →
  0 < size a < 2 ^ 64 →
  size a - 1 = capacity a / 2 →
  capacity a ≠ min_capacity a →
  realloc r (buf a) (wrap64 (Z.pos sizeof * (capacity a / 2))) = None →
  array_remove r a =
    Normal (mk_array (buf a) (capacity a / 2) (size a - 1) (min_capacity a)
                     OUT_OF_MEM)
           [Refused (wrap64 (Z.pos sizeof * (capacity a / 2)))] ∧
  ∀ index l,
    0 <= index < size a →
    buf a = Some l → size a <= Z.of_nat (length l) →
    ∃ a' log, array_remove_index r index a = Normal a' log ∧
              error a' = OUT_OF_MEM ∧ size a' = size a - 1 ∧
              ¬ all_granted log.
Proof.
  intros He Hsz Hhalf Hne Hfail. split.
  - unfold array_remove.
    destruct (decide (error a = OK_ERROR)); [|done].
    destruct (decide (size a > 0)); [|lia].
    pose proof (shrink_after_decrement_cases r a) as Hcases. cbn zeta in Hcases.
    destruct (decide (size a - 1 = capacity a / 2 ∧ capacity a ≠ min_capacity a));
      [|tauto].
    rewrite Hfail in Hcases. apply Hcases. lia.
  - intros index l Hin Hb Hlen. unfold array_remove_index.
    destruct (decide (error a = OK_ERROR)); [|done].
    destruct (decide (size a > 0 ∧ 0 <= index ∧ index < size a)); [|lia].
    rewrite Hb, (wrap64_small (size a - 1)) by lia.
    unfold shift_left.
    destruct (shift_left_loop_total (Z.to_nat (size a - 1 - index)) l index
                (size a - 1)) as (l' & -> & Hlen'); [lia|lia|lia|].
    cbn [mbind exec_bind].
    pose proof (shrink_after_decrement_cases r (set_buf a (Some l'))) as Hcases.
    cbn zeta in Hcases.
    cbn [size capacity min_capacity buf error set_buf] in Hcases.
    destruct (decide (size a - 1 = capacity a / 2 ∧ capacity a ≠ min_capacity a));
      [|tauto].
    rewrite (realloc_fails_any_block r (buf a) (Some l') _ Hfail) in Hcases.
    rewrite Hcases by lia.
    eexists _, _. split; [done|]. cbn. split; [done|]. split; [done|].
    apply not_all_granted_refused.
Qed.

End ShrinkFailure.

Lemma shrink_failure_keeps_decrement_witness :
  array_remove AllocFail (mk_array (Some [1; 2; 3; 0]) 4 3 1 OK_ERROR) =
    Normal (mk_array (Some [1; 2; 3; 0]) 2 2 1 OUT_OF_MEM) [Refused 8] ∧
  ∃ a' log,
    array_remove_index AllocFail 0 (mk_array (Some [1; 2; 3; 0]) 4 3 1 OK_ERROR)
      = Normal a' log ∧
    error a' = OUT_OF_MEM ∧ size a' = 2 ∧ ¬ all_granted log.
Proof.
  destruct (shrink_failure_keeps_decrement AllocFail
              (mk_array (Some [1; 2; 3; 0]) 4 3 1 OK_ERROR))
    as [Hlast Hat].
  - reflexivity.
  - simpl. lia.
  - reflexivity.
  - simpl. lia.
  - reflexivity.
  - split; [exact Hlast|].
    apply (Hat 0 [1; 2; 3; 0]).
    + simpl. lia.
    + reflexivity.
    + simpl. lia.
Defined.

(** ** What an out-of-bounds call leaves behind *)

Section OutOfBounds.
Context {T : Type} `{CType T}.

Lemma bind_Normal {A B} (m : exec A) (f : A → exec B) b log :
  m ≫= f = Normal b log →
  ∃ a log1 log2, m = Normal a log1 ∧ f a = Normal b log2 ∧ log = log1 ++ log2.
Proof.
  destruct m as [a log1|]; [|done]. cbn.
  destruct (f a) as [b' log2|] eqn:Hf; [|done].
  intros [= <- <-]. eauto 10.
Qed.

Lemma add_tail_error v (a a' : array_struct T) log :
  add_tail v a = Normal a' log → error a' = error a.
Proof.
  unfold add_tail. intros Hrun.
  apply bind_Normal in Hrun as (p & log1 & log2 & _ & Hret & _).
  by injection Hret as <- _.
Qed.

Lemma add_index_checked_error index v (a a' : array_struct T) log :
  add_index_checked index v a = Normal a' log →
  (0 <= index ∧ index <= size a ∧ error a' = error a) ∨
  (¬ (0 <= index ∧ index <= size a) ∧ a' = set_error a OUT_OF_BOUNDS ∧ log = []).
Proof.
  unfold add_index_checked.
  destruct (decide (0 <= index ∧ index <= size a)) as [Hin|Hout].
  - intros Hrun. left.
    apply bind_Normal in Hrun as (p & log1 & log2 & _ & Hrun & _).
    apply bind_Normal in Hrun as (p' & log3 & log4 & _ & Hret & _).
    injection Hret as <- _. cbn. tauto.
  - intros [= <- <-]. by right.
Qed.

Lemma shrink_after_decrement_error r (a a' : array_struct T) log :
  shrink_after_decrement r a = Normal a' log →
  error a' = error a ∨ error a' = OUT_OF_MEM.
Proof.
  unfold shrink_after_decrement.
  cbn [size capacity min_capacity buf set_size set_capacity].
  destruct (decide _).
  - unfold call_realloc. destruct (realloc r (buf a) _); cbn.
    + intros [= <- _]. by left.
    + intros [= <- _]. by right.
  - intros [= <- _]. by left.
Qed.

(** The calls that fail the bounds test return, with the flag set and
    nothing else changed. *)
Lemma array_set_out_of_bounds index v (a : array_struct T) :
  error a = OK_ERROR → ¬ (0 <= index ∧ index < size a) →
  array_set index v a = Normal (set_error a OUT_OF_BOUNDS) [].
Proof.
  intros He Hout. unfold array_set.
  destruct (decide (error a = OK_ERROR)); [|done].
  by destruct (decide (0 <= index ∧ index < size a)).
Qed.

Lemma array_get_out_of_bounds index (a : array_struct T) :
  error a = OK_ERROR → ¬ (0 <= index ∧ index < size a) →
  array_get index a = Normal (set_error a OUT_OF_BOUNDS, None) [].
Proof.
  intros He Hout. unfold array_get.
  destruct (decide (error a = OK_ERROR)); [|done].
  by destruct (decide (0 <= index ∧ index < size a)).
Qed.

Lemma array_remove_empty r (a : array_struct T) :
  error a = OK_ERROR → size a <= 0 →
  array_remove r a = Normal (set_error a OUT_OF_BOUNDS) [].
Proof.
  intros He Hout. unfold array_remove.
  destruct (decide (error a = OK_ERROR)); [|done].
  destruct (decide (size a > 0)); [lia|done].
Qed.

Lemma array_remove_index_out_of_bounds r index (a : array_struct T) :
  error a = OK_ERROR → ¬ (0 <= index ∧ index < size a) →
  array_remove_index r index a = Normal (set_error a OUT_OF_BOUNDS) [].
Proof.
  intros He Hout. unfold array_remove_index.
  destruct (decide (error a = OK_ERROR)); [|done].
  destruct (decide (size a > 0 ∧ 0 <= index ∧ index < size a)); [tauto|done].
Qed.

Lemma array_add_index_out_of_bounds r index v (a : array_struct T) :
  error a = OK_ERROR → size a ≠ capacity a →
  ¬ (0 <= index ∧ index <= size a) →
  array_add_index r index v a = Normal (set_error a OUT_OF_BOUNDS) [].
Proof.
  intros He Hroom Hout. unfold array_add_index, add_index_checked.
  destruct (decide (error a = OK_ERROR)); [|done].
  destruct (decide (size a = capacity a)); [done|].
  by destruct (decide (0 <= index ∧ index <= size a)).
Qed.

(** C2, as the code has it: a call from error = Ok that sets OutOfBounds
    changes nothing but the flag and calls no allocator, with one
    exception. InsertAt on a full array grows before it tests the index:
    with an index above [size] and a granted reallocation, capacity is the
    doubled one and [buf] is the new block, which holds the old slots
    unchanged; size and min_capacity are the old ones and nothing is
    shifted. *)
Theorem out_of_bounds_frame r o (a a' : array_struct T) log :
  error a = OK_ERROR →
  run_op r o a = Normal a' log →
  error a' = OUT_OF_BOUNDS →
  (a' = set_error a OUT_OF_BOUNDS ∧ log = []) ∨
  (∃ index val temp,
      o = InsertAt index val ∧ size a = capacity a ∧
      ¬ (0 <= index ∧ index <= size a) ∧
      realloc r (buf a) (wrap64 (Z.pos sizeof * wrap64 (capacity a * 2)))
        = Some temp ∧
      log = [Granted (wrap64 (Z.pos sizeof * wrap64 (capacity a * 2)))] ∧
      a' = mk_array (Some temp) (wrap64 (capacity a * 2)) (size a)
                    (min_capacity a) OUT_OF_BOUNDS ∧
      ∀ l (i : nat), buf a = Some l →
        (i < length l)%nat → (i < length temp)%nat → temp !! i = l !! i).
Proof.
  intros He Hrun Hoob. destruct o as [v|index v|index v|index| |index];
    cbn [run_op] in Hrun.
  - (* Append never sets the flag to OutOfBounds *)
    unfold array_add in Hrun.
    destruct (decide (error a = OK_ERROR)); [|done].
    destruct (decide (size a = capacity a)).
    + apply bind_Normal in Hrun as (temp & log1 & log2 & _ & Hrun & _).
      destruct temp as [temp|].
      * apply add_tail_error in Hrun. cbn in Hrun. congruence.
      * injection Hrun as <- _. done.
    + apply add_tail_error in Hrun. congruence.
  - unfold array_add_index in Hrun.
    destruct (decide (error a = OK_ERROR)); [|done].
    destruct (decide (size a = capacity a)) as [Hfull|Hroom].
    + cbn [buf capacity set_capacity] in Hrun.
      unfold call_realloc in Hrun.
      destruct (realloc r (buf a) _) as [temp|] eqn:Hre;
        cbn [mbind exec_bind] in Hrun.
      * destruct (add_index_checked _ _ _) as [a'' log''|] eqn:Hchk; [|done].
        injection Hrun as <- <-.
        apply add_index_checked_error in Hchk
          as [(_ & _ & Herr)|(Hout & -> & ->)].
        { cbn in Herr. congruence. }
        right. exists index, v, temp. cbn in Hout.
        split; [done|]. split; [done|]. split; [done|]. split; [done|].
        split; [done|]. split; [done|].
        intros l i Hb Hi Hi'. rewrite Hb in Hre.
        by eapply realloc_keeps.
      * cbn in Hrun. injection Hrun as <- _. done.
    + apply add_index_checked_error in Hrun
        as [(_ & _ & Herr)|(_ & -> & ->)]; [congruence|by left].
  - unfold array_set in Hrun.
    destruct (decide (error a = OK_ERROR)); [|done].
    destruct (decide (0 <= index ∧ index < size a)).
    + apply bind_Normal in Hrun as (p & log1 & log2 & _ & Hret & _).
      injection Hret as <- _. cbn in Hoob. congruence.
    + injection Hrun as <- <-. by left.
  - apply bind_Normal in Hrun as (res & log1 & log2 & Hget & Hret & ->).
    injection Hret as <- <-. unfold array_get in Hget.
    destruct (decide (error a = OK_ERROR)); [|done].
    destruct (decide (0 <= index ∧ index < size a)).
    + apply bind_Normal in Hget as (x & log3 & log4 & _ & Hret & _).
      injection Hret as <- _. cbn in Hoob. congruence.
    + injection Hget as <- <-. by left.
  - unfold array_remove in Hrun.
    destruct (decide (error a = OK_ERROR)); [|done].
    destruct (decide (size a > 0)).
    + apply shrink_after_decrement_error in Hrun as [Herr|Herr]; congruence.
    + injection Hrun as <- <-. by left.
  - unfold array_remove_index in Hrun.
    destruct (decide (error a = OK_ERROR)); [|done].
    destruct (decide (size a > 0 ∧ 0 <= index ∧ index < size a)).
    + apply bind_Normal in Hrun as (p & log1 & log2 & _ & Hrun & _).
      apply shrink_after_decrement_error in Hrun as [Herr|Herr];
        cbn in Herr; congruence.
    + injection Hrun as <- <-. by left.
Qed.

End OutOfBounds.

Lemma out_of_bounds_frame_witness :
  error full1 = OK_ERROR ∧
  run_op grant (InsertAt 5 9) full1 =
    Normal (mk_array (Some [7; -1]) 2 1 1 OUT_OF_BOUNDS) [Granted 8] ∧
  ((mk_array (Some [7; -1]) 2 1 1 OUT_OF_BOUNDS = set_error full1 OUT_OF_BOUNDS ∧
    [Granted 8] = []) ∨
   (∃ index val temp,
      InsertAt 5 9 = InsertAt index val ∧ size full1 = capacity full1 ∧
      ¬ (0 <= index ∧ index <= size full1) ∧
      realloc grant (buf full1)
        (wrap64 (Z.pos sizeof * wrap64 (capacity full1 * 2))) = Some temp ∧
      [Granted 8] =
        [Granted (wrap64 (Z.pos sizeof * wrap64 (capacity full1 * 2)))] ∧
      mk_array (Some [7; -1]) 2 1 1 OUT_OF_BOUNDS =
        mk_array (Some temp) (wrap64 (capacity full1 * 2)) (size full1)
                 (min_capacity full1) OUT_OF_BOUNDS ∧
      ∀ l (i : nat), buf full1 = Some l →
        (i < length l)%nat → (i < length temp)%nat → temp !! i = l !! i)).
Proof.
  split; [reflexivity|]. split; [reflexivity|].
  exact (out_of_bounds_frame grant (InsertAt 5 9) full1 _ _
           eq_refl eq_refl eq_refl).
Defined.

(** C2, as stated, fails: InsertAt above [size] on a full array sets
    OutOfBounds after it has doubled the capacity and replaced the block. *)
Lemma insert_out_of_bounds_grows_first :
  error full1 = OK_ERROR ∧ size full1 = capacity full1 ∧ size full1 < 5 ∧
  ∃ a' log, run_op grant (InsertAt 5 9) full1 = Normal a' log ∧
            error a' = OUT_OF_BOUNDS ∧
            capacity full1 = 1 ∧ capacity a' = 2 ∧
            buf full1 = Some [7] ∧ buf a' = Some [7; -1].
Proof.
  split; [reflexivity|]. split; [reflexivity|]. split; [simpl; lia|].
  eexists _, _. split; [reflexivity|]. repeat split.
Qed.

(** ** Runs of appends *)

Section Appends.
Context {T : Type} `{CType T}.

(** The allocation of [array_init] is granted, or the flag says so. *)
Lemma array_init_cases r c (a0 a : array_struct T) log :
  array_init r c a0 = Normal a log →
  all_granted log ∨ (error a = OUT_OF_MEM ∧ ¬ all_granted log).
Proof.
  unfold array_init, call_calloc. destruct (calloc r c); cbn.
  - intros [= <- <-]. left. auto.
  - intros [= <- <-]. right. split; [done|]. apply not_all_granted_refused.
Qed.

(** What one granted Append does to a consistent struct. *)
Lemma array_add_granted r v (a a' : array_struct T) log :
  consistent a → error a = OK_ERROR →
  array_add r v a = Normal a' log → all_granted log →
  error a' = OK_ERROR ∧ consistent a' ∧
  size a' = size a + 1 ∧
  min_capacity a' = min_capacity a ∧
  capacity a' =
    (if decide (size a = capacity a) then capacity a * 2 else capacity a) ∧
  log =
    (if decide (size a = capacity a)
     then [Granted (Z.pos sizeof * (capacity a * 2))] else []) ∧
  contents a' = contents a ++ [v].
Proof.
  intros Hc He Hrun Hall.
  destruct (array_add_step r v a Hc He) as (a'' & log' & Hrun' & Hcases).
  rewrite Hrun in Hrun'. injection Hrun' as <- <-.
  destruct Hcases as [[_ Hnot]|(_ & Hcases)]; [done|]. exact Hcases.
Qed.



End Appends.


(** ** Calls whose allocation is granted *)

(** [grants], by computation, for a concrete reply and byte count. *)
Ltac grants_by_computation :=
  let p := fresh "p" in intros p; vm_compute; eexists; reflexivity.

Section Granted.
Context {T : Type} `{CType T}.

Lemma grants_iff r bytes :
  grants r bytes ↔ (∃ junk, r = AllocGrant junk) ∧ bytes <= PTRDIFF_MAX.
Proof.
  unfold grants, realloc. split.
  - intros Hg. specialize (Hg None). destruct r as [|junk].
    + by destruct Hg.
    + destruct (decide (bytes <= PTRDIFF_MAX)); [eauto|by destruct Hg].
  - intros [[junk ->] Hle] p.
    destruct (decide (bytes <= PTRDIFF_MAX)); [by eexists|done].
Qed.

(** [array_init] when [calloc] hands a block back. *)
Lemma array_init_granted r c (a0 : array_struct T) :
  is_Some (calloc r c) →
  array_init r c a0 =
    Normal (mk_array (Some (replicate (Z.to_nat c) zero)) c 0 c OK_ERROR)
           [Granted (Z.pos sizeof * c)].
Proof.
  intros [l Hcal]. unfold array_init, call_calloc. rewrite Hcal. cbn.
  by apply calloc_Some in Hcal as [_ ->].
Qed.

(** Append on a consistent struct when the reallocation it may ask for is
    granted. *)
Lemma array_add_granted_reply r v (a : array_struct T) :
  consistent a → error a = OK_ERROR →
  (size a = capacity a → grants r (Z.pos sizeof * (capacity a * 2))) →
  ∃ a',
    array_add r v a =
      Normal a' (if decide (size a = capacity a)
                 then [Granted (Z.pos sizeof * (capacity a * 2))] else []) ∧
    error a' = OK_ERROR ∧ consistent a' ∧
    size a' = size a + 1 ∧
    min_capacity a' = min_capacity a ∧
    capacity a' =
      (if decide (size a = capacity a) then capacity a * 2 else capacity a) ∧
    contents a' = contents a ++ [v].
Proof.
  intros Hc He Hg.
  destruct (array_add_step r v a Hc He)
    as (a' & log & Hrun &
        [[Hoom _]|(_ & He' & Hc' & Hsz & Hmin & Hcap & Hlog & Hcont)]).
  - exfalso.
    pose proof (consistent_capacity_pos a Hc) as Hpos.
    pose proof (consistent_capacity_small a Hc) as Hsmall.
    destruct Hc as [_ _ _ _ Hfit _]. unfold PTRDIFF_MAX in Hfit.
    unfold array_add in Hrun.
    destruct (decide (error a = OK_ERROR)); [|done].
    destruct (decide (size a = capacity a)) as [Hfull|Hroom].
    + cbn [buf capacity set_capacity] in Hrun.
      rewrite (wrap64_small (capacity a * 2)) in Hrun by lia.
      rewrite wrap64_small in Hrun by nia.
      destruct (Hg Hfull (buf a)) as [temp Hre].
      rewrite (call_realloc_Some _ _ _ _ Hre) in Hrun.
      cbn [mbind exec_bind] in Hrun.
      destruct (add_tail _ _) as [a'' log''|] eqn:Htail; [|done].
      injection Hrun as <- _.
      apply add_tail_error in Htail. cbn in Htail. congruence.
    + apply add_tail_error in Hrun. congruence.
  - exists a'. rewrite Hrun, Hlog. done.
Qed.

End Granted.

(** ** Five appends from capacity one *)

Section Growth.
Context {T : Type} `{CType T}.

(** C6: Initialize with capacity 1 and five appends, when the allocator
    grants the allocation of Initialize and the reallocations for 2, 4 and
    8 slots. The sizes run from 0 to 5 with the flag Ok throughout and the
    capacities are 1, 1, 2, 4, 4, 8. The second, third and fifth appends,
    the ones that find size = capacity, each make one reallocation, for 2,
    4 and 8 slots; the first and the fourth make none, whatever the
    allocator would have answered them. At the end Size() is 5 and the
    elements are the five values in order. *)
Theorem five_appends_from_capacity_one r0 (a0 : array_struct T)
    r1 v1 r2 v2 r3 v3 r4 v4 r5 v5 :
  is_Some (calloc r0 1) →
  grants r2 (Z.pos sizeof * 2) →
  grants r3 (Z.pos sizeof * 4) →
  grants r5 (Z.pos sizeof * 8) →
  ∃ s0 s1 s2 s3 s4 s5,
    array_init r0 1 a0 = Normal s0 [Granted (Z.pos sizeof * 1)] ∧
    array_add r1 v1 s0 = Normal s1 [] ∧
    array_add r2 v2 s1 = Normal s2 [Granted (Z.pos sizeof * 2)] ∧
    array_add r3 v3 s2 = Normal s3 [Granted (Z.pos sizeof * 4)] ∧
    array_add r4 v4 s3 = Normal s4 [] ∧
    array_add r5 v5 s4 = Normal s5 [Granted (Z.pos sizeof * 8)] ∧
    (size s0 = 0 ∧ capacity s0 = 1) ∧
    (size s1 = 1 ∧ capacity s1 = 1) ∧
    (size s2 = 2 ∧ capacity s2 = 2) ∧
    (size s3 = 3 ∧ capacity s3 = 4) ∧
    (size s4 = 4 ∧ capacity s4 = 4) ∧
    (size s5 = 5 ∧ capacity s5 = 8) ∧
    Forall (λ s, error s = OK_ERROR) [s0; s1; s2; s3; s4; s5] ∧
    array_size s5 = 5 ∧ array_error_state s5 = OK_ERROR ∧
    contents s5 = [v1; v2; v3; v4; v5].
Proof.
  intros Hcal Hg2 Hg3 Hg5.
  pose proof (array_init_granted r0 1 a0 Hcal) as Hinit.
  set (s0 := mk_array (Some (replicate (Z.to_nat 1) zero)) 1 0 1 OK_ERROR)
    in Hinit.
  assert (consistent s0) as Hc0.
  { apply (array_init_consistent r0 1 a0 s0 _ ltac:(lia) Hinit).
    apply all_granted_one. }
  assert (error s0 = OK_ERROR ∧ size s0 = 0 ∧ capacity s0 = 1 ∧ contents s0 = [])
    as (He0 & Hsz0 & Hcap0 & Hcont0) by done.
  clearbody s0.
  destruct (array_add_granted_reply r1 v1 s0 Hc0 He0)
    as (s1 & Hadd1 & He1 & Hc1 & Hsz1 & _ & Hcap1 & Hcont1); [lia|].
  rewrite Hsz0, Hcap0 in Hadd1, Hcap1. rewrite Hsz0 in Hsz1.
  destruct (decide (0 = 1)) as [?|_]; [lia|].
  destruct (array_add_granted_reply r2 v2 s1 Hc1 He1)
    as (s2 & Hadd2 & He2 & Hc2 & Hsz2 & _ & Hcap2 & Hcont2).
  { intros _. by rewrite Hcap1. }
  rewrite Hsz1, Hcap1 in Hadd2, Hcap2. rewrite Hsz1 in Hsz2.
  destruct (decide (0 + 1 = 1)) as [_|?]; [|lia].
  destruct (array_add_granted_reply r3 v3 s2 Hc2 He2)
    as (s3 & Hadd3 & He3 & Hc3 & Hsz3 & _ & Hcap3 & Hcont3).
  { intros _. by rewrite Hcap2. }
  rewrite Hsz2, Hcap2 in Hadd3, Hcap3. rewrite Hsz2 in Hsz3.
  destruct (decide (0 + 1 + 1 = 1 * 2)) as [_|?]; [|lia].
  destruct (array_add_granted_reply r4 v4 s3 Hc3 He3)
    as (s4 & Hadd4 & He4 & Hc4 & Hsz4 & _ & Hcap4 & Hcont4); [lia|].
  rewrite Hsz3, Hcap3 in Hadd4, Hcap4. rewrite Hsz3 in Hsz4.
  destruct (decide (0 + 1 + 1 + 1 = 1 * 2 * 2)) as [?|_]; [lia|].
  destruct (array_add_granted_reply r5 v5 s4 Hc4 He4)
    as (s5 & Hadd5 & He5 & Hc5 & Hsz5 & _ & Hcap5 & Hcont5).
  { intros _. by rewrite Hcap4. }
  rewrite Hsz4, Hcap4 in Hadd5, Hcap5. rewrite Hsz4 in Hsz5.
  destruct (decide (0 + 1 + 1 + 1 + 1 = 1 * 2 * 2)) as [_|?]; [|lia].
  exists s0, s1, s2, s3, s4, s5.
  do 6 (split; [done|]).
  unfold array_size, array_error_state.
  do 6 (split; [split; (done || lia)|]).
  split; [by repeat constructor|].
  split; [lia|]. split; [done|].
  by rewrite Hcont5, Hcont4, Hcont3, Hcont2, Hcont1, Hcont0.
Qed.

End Growth.

Lemma five_appends_from_capacity_one_witness :
  ∃ s0 s1 s2 s3 s4 s5,
    array_init grant 1 stale = Normal s0 [Granted 4] ∧
    array_add AllocFail 10 s0 = Normal s1 [] ∧
    array_add grant 20 s1 = Normal s2 [Granted 8] ∧
    array_add grant 30 s2 = Normal s3 [Granted 16] ∧
    array_add AllocFail 40 s3 = Normal s4 [] ∧
    array_add grant 50 s4 = Normal s5 [Granted 32] ∧
    (size s0 = 0 ∧ capacity s0 = 1) ∧
    (size s1 = 1 ∧ capacity s1 = 1) ∧
    (size s2 = 2 ∧ capacity s2 = 2) ∧
    (size s3 = 3 ∧ capacity s3 = 4) ∧
    (size s4 = 4 ∧ capacity s4 = 4) ∧
    (size s5 = 5 ∧ capacity s5 = 8) ∧
    Forall (λ s, error s = OK_ERROR) [s0; s1; s2; s3; s4; s5] ∧
    array_size s5 = 5 ∧ array_error_state s5 = OK_ERROR ∧
    contents s5 = [10; 20; 30; 40; 50].
Proof.
  assert (is_Some (calloc grant 1)) as Hcal
    by (vm_compute; eexists; reflexivity).
  assert (grants grant 8) as Hg2 by grants_by_computation.
  assert (grants grant 16) as Hg3 by grants_by_computation.
  assert (grants grant 32) as Hg5 by grants_by_computation.
  exact (five_appends_from_capacity_one grant stale
           AllocFail 10 grant 20 grant 30 AllocFail 40 grant 50
           Hcal Hg2 Hg3 Hg5).
Defined.

(** ** Removing from a full array down to nothing *)

Section Shrink.
Context {T : Type} `{CType T}.




End Shrink.


(** * Further properties *)

(** ** What the two shifts do to the block *)

Section Shifts.
Context {T : Type} `{CType T}.

(** After the right shift every slot in (index, start] holds what its left
    neighbour held; the other slots are as before. *)
Lemma shift_right_loop_lookup fuel (l : list T) i index :
  0 <= index → i < Z.of_nat (length l) → i < 2 ^ 64 →
  (Z.to_nat (i - index) <= fuel)%nat →
  ∃ l', shift_right_loop fuel (Some l) i index = Normal (Some l') [] ∧
        length l' = length l ∧
        ∀ j : nat,
          l' !! j =
            if decide (index < Z.of_nat j ∧ Z.of_nat j <= i)
            then l !! (j - 1)%nat else l !! j.
Proof.
  revert l i. induction fuel as [|fuel IH]; intros l i Hidx Hi Hi64 Hfuel.
  - exists l. split; [done|]. split; [done|].
    intros j. destruct (decide _); [lia|done].
  - cbn [shift_right_loop]. destruct (decide (index < i)) as [Hlt|Hge].
    + rewrite (wrap64_small (i - 1)) by lia.
      destruct (load_Some l (i - 1)) as (x & Hx & ->); [lia|].
      cbn [mbind exec_bind]. rewrite store_Some by lia. cbn [mbind exec_bind].
      destruct (IH (<[Z.to_nat i := x]> l) (i - 1)) as (l' & -> & Hlen & Hlook);
        [done|rewrite length_insert; lia|lia|lia|].
      exists l'. split; [done|].
      split; [by rewrite Hlen, length_insert|].
      intros j. rewrite Hlook.
      destruct (decide (index < Z.of_nat j ∧ Z.of_nat j <= i - 1)) as [Hin|Hout];
        destruct (decide (index < Z.of_nat j ∧ Z.of_nat j <= i)) as [Hin'|Hout'];
        try lia.
      * by rewrite list_lookup_insert_ne by lia.
      * assert (j = Z.to_nat i) as -> by lia.
        rewrite list_lookup_insert_eq by lia.
        rewrite <- Hx. f_equal. lia.
      * by rewrite list_lookup_insert_ne by lia.
    + exists l. split; [done|]. split; [done|].
      intros j. destruct (decide _); [lia|done].
Qed.

(** After the left shift every slot in [index, bound) holds what its right
    neighbour held; the other slots are as before. *)
Lemma shift_left_loop_lookup fuel (l : list T) i bound :
  0 <= i → bound < Z.of_nat (length l) → bound < 2 ^ 64 →
  (Z.to_nat (bound - i) <= fuel)%nat →
  ∃ l', shift_left_loop fuel (Some l) i bound = Normal (Some l') [] ∧
        length l' = length l ∧
        ∀ j : nat,
          l' !! j =
            if decide (i <= Z.of_nat j ∧ Z.of_nat j < bound)
            then l !! (j + 1)%nat else l !! j.
Proof.
  revert l i. induction fuel as [|fuel IH]; intros l i Hi Hb Hb64 Hfuel.
  - exists l. split; [done|]. split; [done|].
    intros j. destruct (decide _); [lia|done].
  - cbn [shift_left_loop]. destruct (decide (i < bound)) as [Hlt|Hge].
    + rewrite (wrap64_small (i + 1)) by lia.
      destruct (load_Some l (i + 1)) as (x & Hx & ->); [lia|].
      cbn [mbind exec_bind]. rewrite store_Some by lia. cbn [mbind exec_bind].
      destruct (IH (<[Z.to_nat i := x]> l) (i + 1)) as (l' & -> & Hlen & Hlook);
        [lia|rewrite length_insert; lia|lia|lia|].
      exists l'. split; [done|].
      split; [by rewrite Hlen, length_insert|].
      intros j. rewrite Hlook.
      destruct (decide (i + 1 <= Z.of_nat j ∧ Z.of_nat j < bound)) as [Hin|Hout];
        destruct (decide (i <= Z.of_nat j ∧ Z.of_nat j < bound)) as [Hin'|Hout'];
        try lia.
      * by rewrite list_lookup_insert_ne by lia.
      * assert (j = Z.to_nat i) as -> by lia.
        rewrite list_lookup_insert_eq by lia.
        rewrite <- Hx. f_equal. lia.
      * by rewrite list_lookup_insert_ne by lia.
    + exists l. split; [done|]. split; [done|].
      intros j. destruct (decide _); [lia|done].
Qed.

(** The first [n + 1] slots after a right shift from [n] down to [k] and
    a store at [k]: the first [n] old slots with the value put in at [k]. *)
Lemma take_shifted_right (l l' : list T) (n k : nat) v :
  (k <= n)%nat → (n < length l)%nat → length l' = length l →
  (∀ j : nat,
     l' !! j =
       if decide (Z.of_nat k < Z.of_nat j ∧ Z.of_nat j <= Z.of_nat n)
       then l !! (j - 1)%nat else l !! j) →
  take (S n) (<[k := v]> l') = take k (take n l) ++ v :: drop k (take n l).
Proof.
  intros Hk Hn Hlen Hlook. apply list_eq. intros j.
  assert (length (take k (take n l)) = k) as Hlk
    by (rewrite !length_take; lia).
  destruct (decide (j < S n)%nat) as [Hj|Hj].
  - rewrite lookup_take_lt by done.
    destruct (decide (j = k)) as [->|Hne].
    + rewrite list_lookup_insert_eq by lia.
      by rewrite list_lookup_middle.
    + rewrite list_lookup_insert_ne by done. rewrite Hlook.
      destruct (decide (Z.of_nat k < Z.of_nat j ∧ Z.of_nat j <= Z.of_nat n))
        as [Hin|Hout].
      * rewrite lookup_app_r by lia. rewrite Hlk.
        rewrite lookup_cons_ne_0 by lia.
        rewrite lookup_drop, lookup_take_lt by lia. f_equal. lia.
      * rewrite lookup_app_l by lia.
        by rewrite !lookup_take_lt by lia.
  - rewrite lookup_take_ge by lia. symmetry. apply lookup_ge_None_2.
    rewrite length_app. cbn. rewrite length_drop, Hlk, length_take. lia.
Qed.

(** The first [n - 1] slots after a left shift from [k] up to [n - 1]:
    the first [n] old slots without the one at [k]. *)
Lemma take_shifted_left (l l' : list T) (n k : nat) :
  (k < n)%nat → (n <= length l)%nat → length l' = length l →
  (∀ j : nat,
     l' !! j =
       if decide (Z.of_nat k <= Z.of_nat j ∧ Z.of_nat j < Z.of_nat n - 1)
       then l !! (j + 1)%nat else l !! j) →
  take (n - 1) l' = take k (take n l) ++ drop (S k) (take n l).
Proof.
  intros Hk Hn Hlen Hlook. apply list_eq. intros j.
  assert (length (take k (take n l)) = k) as Hlk
    by (rewrite !length_take; lia).
  destruct (decide (j < n - 1)%nat) as [Hj|Hj].
  - rewrite lookup_take_lt by done. rewrite Hlook.
    destruct (decide (Z.of_nat k <= Z.of_nat j ∧ Z.of_nat j < Z.of_nat n - 1))
      as [Hin|Hout].
    + rewrite lookup_app_r by lia. rewrite Hlk.
      rewrite lookup_drop, lookup_take_lt by lia. f_equal. lia.
    + rewrite lookup_app_l by lia.
      by rewrite !lookup_take_lt by lia.
  - rewrite lookup_take_ge by lia. symmetry. apply lookup_ge_None_2.
    rewrite length_app, length_drop, Hlk, length_take. lia.
Qed.

End Shifts.

(** ** The elements after one operation *)

Section Elements.
Context {T : Type} `{CType T}.

Lemma length_contents (a : array_struct T) :
  consistent a → Z.of_nat (length (contents a)) = size a.
Proof.
  intros [(l & Hb & Hlen) Hsz _ _ _ _]. unfold contents.
  rewrite Hb. cbn. rewrite length_take. lia.
Qed.

(** A granted growth keeps the elements. *)
Lemma grown_contents r (a : array_struct T) temp :
  consistent a →
  realloc r (buf a) (wrap64 (Z.pos sizeof * wrap64 (capacity a * 2))) = Some temp →
  contents (set_buf (set_capacity a (wrap64 (capacity a * 2))) (Some temp))
    = contents a.
Proof.
  intros Hc Hre.
  destruct (grown_consistent r a temp Hc Hre) as (Hcap & [(l' & Hb' & Hlen') _ _ _ _ _]).
  cbn in Hb', Hlen'. injection Hb' as <-.
  pose proof (consistent_capacity_pos a Hc) as Hpos.
  destruct Hc as [(l & Hb & Hlen) Hsz _ _ _ _].
  apply realloc_Some in Hre as (_ & junk & _ & Htemp).
  unfold contents. cbn. rewrite Hb in *. cbn in *.
  rewrite Htemp in Hlen' |- *. rewrite length_resize_block in Hlen'.
  apply take_resize_block; lia.
Qed.

(** The bounds test of [array_add_index] passed, on a struct with a free
    slot: the value is put in at [index], before the elements that were at
    [index] and after. *)
Lemma add_index_checked_inside index v (a : array_struct T) :
  consistent a → size a < capacity a → 0 <= index <= size a →
  ∃ a', add_index_checked index v a = Normal a' [] ∧
        consistent a' ∧ error a' = error a ∧
        size a' = size a + 1 ∧ capacity a' = capacity a ∧
        min_capacity a' = min_capacity a ∧
        contents a' =
          take (Z.to_nat index) (contents a) ++
          v :: drop (Z.to_nat index) (contents a).
Proof.
  intros Hc Hroom Hin.
  pose proof (consistent_capacity_small a Hc) as Hsmall.
  pose proof Hc as [(l & Hb & Hlen) Hsz Hmin Hpow Hfit Hno].
  unfold add_index_checked.
  destruct (decide (0 <= index ∧ index <= size a)) as [_|Hout]; [|lia].
  cbn [buf size set_size].
  rewrite (wrap64_small (size a + 1)) by lia.
  replace (size a + 1 - 1) with (size a) by lia.
  rewrite (wrap64_small (size a)) by lia.
  rewrite Hb. unfold shift_right.
  destruct (shift_right_loop_lookup (Z.to_nat (size a - index)) l (size a) index)
    as (l' & -> & Hlen' & Hlook); [lia|lia|lia|lia|].
  cbn [mbind exec_bind]. rewrite store_Some by lia.
  eexists. split; [done|]. cbn.
  split; [|split; [done|split; [done|split; [done|split; [done|]]]]].
  - split; cbn; try done.
    + eexists. split; [done|]. rewrite length_insert. lia.
    + lia.
  - unfold contents. cbn. rewrite Hb. cbn.
    replace (Z.to_nat (size a + 1)) with (S (Z.to_nat (size a))) by lia.
    apply take_shifted_right; [lia|lia|done|].
    intros j. rewrite Hlook.
    destruct (decide (index < Z.of_nat j ∧ Z.of_nat j <= size a));
      destruct (decide (Z.of_nat (Z.to_nat index) < Z.of_nat j ∧
                        Z.of_nat j <= Z.of_nat (Z.to_nat (size a))));
      (done || lia).
Qed.

(** InsertAt at a valid index of a consistent struct. *)
Lemma array_add_index_inside r index v (a : array_struct T) :
  consistent a → error a = OK_ERROR → 0 <= index <= size a →
  ∃ a' log, array_add_index r index v a = Normal a' log ∧
    ((error a' = OUT_OF_MEM ∧ ¬ all_granted log) ∨
     (all_granted log ∧ error a' = OK_ERROR ∧ consistent a' ∧
      size a' = size a + 1 ∧
      min_capacity a' = min_capacity a ∧
      capacity a' =
        (if decide (size a = capacity a) then capacity a * 2 else capacity a) ∧
      contents a' =
        take (Z.to_nat index) (contents a) ++
        v :: drop (Z.to_nat index) (contents a))).
Proof.
  intros Hc He Hin. unfold array_add_index.
  destruct (decide (error a = OK_ERROR)); [|done].
  destruct (decide (size a = capacity a)) as [Hfull|Hroom].
  - cbn [buf capacity set_capacity].
    destruct (realloc r (buf a) (wrap64 (Z.pos sizeof * wrap64 (capacity a * 2))))
      as [temp|] eqn:Hre.
    + rewrite (call_realloc_Some _ _ _ _ Hre). cbn [mbind exec_bind].
      destruct (grown_consistent r a temp Hc Hre) as (Hcap & Hc').
      pose proof (grown_contents r a temp Hc Hre) as Hcont.
      pose proof (consistent_capacity_pos a Hc) as Hpos.
      destruct (add_index_checked_inside index v _ Hc')
        as (a' & -> & Hc'' & He' & Hsz' & Hcap' & Hmin' & Hcont').
      { cbn. rewrite Hcap. lia. }
      { cbn. lia. }
      eexists _, _. split; [done|]. right.
      cbn in He', Hsz', Hcap', Hmin'. rewrite Hcont in Hcont'.
      split; [apply all_granted_one|]. split; [congruence|]. split; [done|].
      split; [done|]. split; [done|]. split; [congruence|done].
    + rewrite (call_realloc_None _ _ _ Hre). cbn.
      eexists _, _. split; [done|]. left. split; [done|].
      apply not_all_granted_refused.
  - destruct (add_index_checked_inside index v a Hc)
      as (a' & -> & Hc' & He' & Hsz' & Hcap' & Hmin' & Hcont'); [|done|].
    { destruct Hc as [_ Hsz _ _ _ _]. lia. }
    eexists _, _. split; [done|]. right.
    split; [apply all_granted_nil|]. split; [congruence|]. done.
Qed.

(** SetAt at a valid index of a consistent struct. *)
Lemma array_set_inside index v (a : array_struct T) :
  consistent a → error a = OK_ERROR → 0 <= index < size a →
  ∃ a', array_set index v a = Normal a' [] ∧
        consistent a' ∧ error a' = OK_ERROR ∧
        size a' = size a ∧ capacity a' = capacity a ∧
        min_capacity a' = min_capacity a ∧
        contents a' = <[Z.to_nat index := v]> (contents a).
Proof.
  intros Hc He Hin. unfold array_set.
  destruct (decide (error a = OK_ERROR)); [|done].
  pose proof Hc as [(l & Hb & Hlen) Hsz Hmin Hpow Hfit Hno].
  destruct (decide (0 <= index ∧ index < size a)) as [_|Hout]; [|lia].
  rewrite Hb, store_Some by lia.
  eexists. split; [done|]. cbn.
  split; [|split; [done|split; [done|split; [done|split; [done|]]]]].
  - split; cbn; try done.
    eexists. split; [done|]. rewrite length_insert. lia.
  - unfold contents. cbn. rewrite Hb. cbn.
    by rewrite take_insert_lt by lia.
Qed.

(** The decrement and the shrink test on a consistent, non-empty struct:
    the last element goes. *)
Lemma shrink_after_decrement_inside r (a : array_struct T) :
  consistent a → error a = OK_ERROR → 0 < size a →
  ∃ a' log, shrink_after_decrement r a = Normal a' log ∧
    size a' = size a - 1 ∧
    min_capacity a' = min_capacity a ∧
    capacity a' =
      (if decide (size a - 1 = capacity a / 2 ∧ capacity a ≠ min_capacity a)
       then capacity a / 2 else capacity a) ∧
    ((error a' = OUT_OF_MEM ∧ ¬ all_granted log) ∨
     (all_granted log ∧ error a' = OK_ERROR ∧ consistent a' ∧
      contents a' = take (Z.to_nat (size a - 1)) (contents a) ∧
      log =
        (if decide (size a - 1 = capacity a / 2 ∧ capacity a ≠ min_capacity a)
         then [Granted (Z.pos sizeof * (capacity a / 2))] else []))).
Proof.
  intros Hc He Hpos.
  pose proof (consistent_capacity_small a Hc) as Hsmall.
  pose proof (consistent_capacity_pos a Hc) as Hcpos.
  assert (wrap64 (Z.pos sizeof * (capacity a / 2)) = Z.pos sizeof * (capacity a / 2))
    as Hbytes.
  { destruct Hc as [_ _ _ _ Hfit _]. unfold PTRDIFF_MAX in Hfit.
    assert (0 <= capacity a / 2 <= capacity a)
      by (split; [apply Z.div_pos; lia|apply Z.div_le_upper_bound; lia]).
    apply wrap64_small. nia. }
  destruct (shrink_after_decrement_step r a Hc Hpos)
    as (a' & log & Hrun & Hstep).
  exists a', log. split; [done|].
  pose proof (shrink_after_decrement_cases r a) as Hcases. cbn zeta in Hcases.
  pose proof Hc as [(l & Hb & Hlen) Hsz _ _ _ _].
  destruct (decide (size a - 1 = capacity a / 2 ∧ capacity a ≠ min_capacity a))
    as [[Hhalf Hne]|Hkeep].
  - destruct (realloc r (buf a) _) as [temp|] eqn:Hre.
    + rewrite Hcases in Hrun by lia. injection Hrun as <- <-. cbn.
      do 3 (split; [done|]).
      destruct Hstep as [[Hoom _]|[Hall Hc']]; [cbn in Hoom; congruence|].
      right. split; [done|]. split; [done|]. split; [done|].
      destruct Hc' as [(l' & Hb' & Hlen') _ _ _ _ _].
      cbn in Hb', Hlen'. injection Hb' as <-.
      apply realloc_Some in Hre as (_ & junk & _ & Htemp).
      unfold contents. cbn. rewrite Hb in *. cbn in *.
      rewrite Htemp in Hlen' |- *. rewrite length_resize_block in Hlen'.
      rewrite take_resize_block by lia.
      split; [|by rewrite Hbytes].
      rewrite take_take. f_equal. lia.
    + rewrite Hcases in Hrun by lia. injection Hrun as <- <-. cbn.
      do 3 (split; [done|]). left. split; [done|].
      apply not_all_granted_refused.
  - rewrite Hcases in Hrun by lia. injection Hrun as <- <-. cbn.
    do 3 (split; [done|]).
    destruct Hstep as [[Hoom _]|[Hall Hc']]; [cbn in Hoom; congruence|].
    right. split; [done|]. split; [done|]. split; [done|]. split; [|done].
    unfold contents. cbn. rewrite take_take. f_equal. lia.
Qed.

(** RemoveAt at a valid index of a consistent struct: the element at
    [index] goes, the ones after it move down by one. *)
Lemma array_remove_index_inside r index (a : array_struct T) :
  consistent a → error a = OK_ERROR → 0 <= index < size a →
  ∃ a' log, array_remove_index r index a = Normal a' log ∧
    size a' = size a - 1 ∧
    min_capacity a' = min_capacity a ∧
    capacity a' =
      (if decide (size a - 1 = capacity a / 2 ∧ capacity a ≠ min_capacity a)
       then capacity a / 2 else capacity a) ∧
    ((error a' = OUT_OF_MEM ∧ ¬ all_granted log) ∨
     (all_granted log ∧ error a' = OK_ERROR ∧ consistent a' ∧
      contents a' =
        take (Z.to_nat index) (contents a) ++
        drop (S (Z.to_nat index)) (contents a))).
Proof.
  intros Hc He Hin. unfold array_remove_index.
  destruct (decide (error a = OK_ERROR)); [|done].
  destruct (decide (size a > 0 ∧ 0 <= index ∧ index < size a)) as [_|Hout];
    [|lia].
  pose proof (consistent_capacity_small a Hc) as Hsmall.
  pose proof Hc as [(l & Hb & Hlen) Hsize Hmin Hpow Hfit Hno].
  rewrite Hb, (wrap64_small (size a - 1)) by lia.
  unfold shift_left.
  destruct (shift_left_loop_lookup (Z.to_nat (size a - 1 - index)) l index
              (size a - 1)) as (l' & -> & Hlen' & Hlook); [lia|lia|lia|lia|].
  cbn [mbind exec_bind].
  assert (consistent (set_buf a (Some l'))) as Hc'.
  { split; cbn; try done. eexists. split; [done|]. lia. }
  destruct (shrink_after_decrement_inside r (set_buf a (Some l')) Hc')
    as (a' & log & -> & Hsz' & Hmin' & Hcap' & Hcases); [done|cbn; lia|].
  cbn in Hsz', Hmin', Hcap'.
  exists a', log. split; [done|]. do 3 (split; [done|]).
  destruct Hcases as [Hoom|(Hall & He' & Hc'' & Hcont & _)]; [by left|].
  right. split; [done|]. split; [done|]. split; [done|].
  rewrite Hcont. unfold contents. cbn. rewrite Hb. cbn.
  rewrite take_take.
  replace (Z.to_nat (size a - 1) `min` Z.to_nat (size a))%nat
    with (Z.to_nat (size a) - 1)%nat by lia.
  apply take_shifted_left; [lia|lia|done|].
  intros j. rewrite Hlook.
  destruct (decide (index <= Z.of_nat j ∧ Z.of_nat j < size a - 1));
    destruct (decide (Z.of_nat (Z.to_nat index) <= Z.of_nat j ∧
                      Z.of_nat j < Z.of_nat (Z.to_nat (size a)) - 1));
    (done || lia).
Qed.

End Elements.

(** ** The elements after a call whose allocation is granted *)

Section GrantedElements.
Context {T : Type} `{CType T}.

(** The decrement and the shrink test on a consistent, non-empty struct
    when the reallocation it may ask for is granted. *)
Lemma shrink_after_decrement_granted_reply r (a : array_struct T) :
  consistent a → error a = OK_ERROR → 0 < size a →
  (size a - 1 = capacity a / 2 → capacity a ≠ min_capacity a →
   grants r (Z.pos sizeof * (capacity a / 2))) →
  ∃ a',
    shrink_after_decrement r a =
      Normal a'
        (if decide (size a - 1 = capacity a / 2 ∧ capacity a ≠ min_capacity a)
         then [Granted (Z.pos sizeof * (capacity a / 2))] else []) ∧
    error a' = OK_ERROR ∧ consistent a' ∧
    size a' = size a - 1 ∧
    min_capacity a' = min_capacity a ∧
    capacity a' =
      (if decide (size a - 1 = capacity a / 2 ∧ capacity a ≠ min_capacity a)
       then capacity a / 2 else capacity a) ∧
    contents a' = take (Z.to_nat (size a - 1)) (contents a).
Proof.
  intros Hc He Hpos Hg.
  pose proof (consistent_capacity_small a Hc) as Hsmall.
  pose proof (consistent_capacity_pos a Hc) as Hcpos.
  assert (wrap64 (Z.pos sizeof * (capacity a / 2)) = Z.pos sizeof * (capacity a / 2))
    as Hbytes.
  { destruct Hc as [_ _ _ _ Hfit _]. unfold PTRDIFF_MAX in Hfit.
    assert (0 <= capacity a / 2 <= capacity a)
      by (split; [apply Z.div_pos; lia|apply Z.div_le_upper_bound; lia]).
    apply wrap64_small. nia. }
  destruct (shrink_after_decrement_inside r a Hc He Hpos)
    as (a' & log & Hrun & Hsz & Hmin & Hcap &
        [[Hoom _]|(_ & He' & Hc' & Hcont & Hlog)]).
  - exfalso.
    pose proof (shrink_after_decrement_cases r a) as Hcases. cbn zeta in Hcases.
    destruct Hc as [_ Hsize _ _ _ _].
    destruct (decide (size a - 1 = capacity a / 2 ∧ capacity a ≠ min_capacity a))
      as [[Hhalf Hne]|Hkeep].
    + rewrite Hbytes in Hcases.
      destruct (Hg Hhalf Hne (buf a)) as [temp Hre]. rewrite Hre in Hcases.
      rewrite Hcases in Hrun by lia. injection Hrun as <- _.
      cbn in Hoom. congruence.
    + rewrite Hcases in Hrun by lia. injection Hrun as <- _.
      cbn in Hoom. congruence.
  - exists a'. rewrite Hrun, Hlog. done.
Qed.

(** InsertAt at a valid index of a consistent struct when the
    reallocation it may ask for is granted. *)
Lemma array_add_index_granted_reply r index v (a : array_struct T) :
  consistent a → error a = OK_ERROR → 0 <= index <= size a →
  (size a = capacity a → grants r (Z.pos sizeof * (capacity a * 2))) →
  ∃ a',
    array_add_index r index v a =
      Normal a' (if decide (size a = capacity a)
                 then [Granted (Z.pos sizeof * (capacity a * 2))] else []) ∧
    error a' = OK_ERROR ∧ consistent a' ∧
    size a' = size a + 1 ∧
    min_capacity a' = min_capacity a ∧
    capacity a' =
      (if decide (size a = capacity a) then capacity a * 2 else capacity a) ∧
    contents a' =
      take (Z.to_nat index) (contents a) ++
      v :: drop (Z.to_nat index) (contents a).
Proof.
  intros Hc He Hin Hg.
  pose proof (consistent_capacity_pos a Hc) as Hpos.
  pose proof (consistent_capacity_small a Hc) as Hsmall.
  assert (wrap64 (capacity a * 2) = capacity a * 2) as Hw1
    by (apply wrap64_small; lia).
  assert (wrap64 (Z.pos sizeof * (capacity a * 2)) = Z.pos sizeof * (capacity a * 2))
    as Hw2.
  { destruct Hc as [_ _ _ _ Hfit _]. unfold PTRDIFF_MAX in Hfit.
    apply wrap64_small. nia. }
  unfold array_add_index.
  destruct (decide (error a = OK_ERROR)); [|done].
  destruct (decide (size a = capacity a)) as [Hfull|Hroom].
  - cbn [buf capacity set_capacity].
    destruct (Hg Hfull (buf a)) as [temp Hre].
    assert (realloc r (buf a) (wrap64 (Z.pos sizeof * wrap64 (capacity a * 2)))
            = Some temp) as Hre' by (by rewrite Hw1, Hw2).
    destruct (grown_consistent r a temp Hc Hre') as (_ & Hc').
    pose proof (grown_contents r a temp Hc Hre') as Hcont.
    rewrite (call_realloc_Some _ _ _ _ Hre'). cbn [mbind exec_bind].
    destruct (add_index_checked_inside index v _ Hc')
      as (a' & -> & Hc'' & He' & Hsz' & Hcap' & Hmin' & Hcont').
    { cbn. lia. }
    { cbn. lia. }
    cbn in He', Hsz', Hcap', Hmin'. rewrite Hcont in Hcont'.
    exists a'. rewrite Hw1, Hw2. cbn [app].
    split; [done|]. split; [congruence|]. split; [done|].
    split; [done|]. split; [done|]. split; [lia|done].
  - destruct (add_index_checked_inside index v a Hc)
      as (a' & -> & Hc' & He' & Hsz' & Hcap' & Hmin' & Hcont'); [|done|].
    { destruct Hc as [_ Hsz _ _ _ _]. lia. }
    exists a'. split; [done|]. split; [congruence|]. done.
Qed.

(** RemoveAt at a valid index of a consistent struct when the
    reallocation it may ask for is granted. *)
Lemma array_remove_index_granted_reply r index (a : array_struct T) :
  consistent a → error a = OK_ERROR → 0 <= index < size a →
  (size a - 1 = capacity a / 2 → capacity a ≠ min_capacity a →
   grants r (Z.pos sizeof * (capacity a / 2))) →
  ∃ a',
    array_remove_index r index a =
      Normal a'
        (if decide (size a - 1 = capacity a / 2 ∧ capacity a ≠ min_capacity a)
         then [Granted (Z.pos sizeof * (capacity a / 2))] else []) ∧
    error a' = OK_ERROR ∧ consistent a' ∧
    size a' = size a - 1 ∧
    min_capacity a' = min_capacity a ∧
    capacity a' =
      (if decide (size a - 1 = capacity a / 2 ∧ capacity a ≠ min_capacity a)
       then capacity a / 2 else capacity a) ∧
    contents a' =
      take (Z.to_nat index) (contents a) ++
      drop (S (Z.to_nat index)) (contents a).
Proof.
  intros Hc He Hin Hg. unfold array_remove_index.
  destruct (decide (error a = OK_ERROR)); [|done].
  destruct (decide (size a > 0 ∧ 0 <= index ∧ index < size a)) as [_|Hout];
    [|lia].
  pose proof (consistent_capacity_small a Hc) as Hsmall.
  pose proof Hc as [(l & Hb & Hlen) Hsize Hmin Hpow Hfit Hno].
  rewrite Hb, (wrap64_small (size a - 1)) by lia.
  unfold shift_left.
  destruct (shift_left_loop_lookup (Z.to_nat (size a - 1 - index)) l index
              (size a - 1)) as (l' & -> & Hlen' & Hlook); [lia|lia|lia|lia|].
  cbn [mbind exec_bind].
  assert (consistent (set_buf a (Some l'))) as Hc'.
  { split; cbn; try done. eexists. split; [done|]. lia. }
  destruct (shrink_after_decrement_granted_reply r (set_buf a (Some l')) Hc')
    as (a' & -> & He' & Hc'' & Hsz' & Hmin' & Hcap' & Hcont); [done|cbn; lia|done|].
  cbn in Hsz', Hmin', Hcap'.
  exists a'. split; [done|]. do 5 (split; [done|]).
  rewrite Hcont. unfold contents. cbn. rewrite Hb. cbn.
  rewrite take_take.
  replace (Z.to_nat (size a - 1) `min` Z.to_nat (size a))%nat
    with (Z.to_nat (size a) - 1)%nat by lia.
  apply take_shifted_left; [lia|lia|done|].
  intros j. rewrite Hlook.
  destruct (decide (index <= Z.of_nat j ∧ Z.of_nat j < size a - 1));
    destruct (decide (Z.of_nat (Z.to_nat index) <= Z.of_nat j ∧
                      Z.of_nat j < Z.of_nat (Z.to_nat (size a)) - 1));
    (done || lia).
Qed.

End GrantedElements.

(** [consistent] of a concrete struct whose capacity is its floor times
    [2 ^ k], by computation. *)
Ltac consistent_by_computation k :=
  split;
  [ eexists; split; reflexivity
  | simpl; lia
  | simpl; lia
  | exists k; reflexivity
  | unfold PTRDIFF_MAX; simpl; lia
  | discriminate ].

Section ElementsOfOneCall.
Context {T : Type} `{CType T}.

(** X1: on a consistent struct with error = Ok, GetAt at a 64-bit index
    returns without a call to the allocator: below [size] it assigns the
    element at that index and leaves the struct as it is; from [size] on
    it assigns nothing and only sets OutOfBounds. *)
Theorem array_get_reads_contents index (a : array_struct T) :
  consistent a → error a = OK_ERROR → 0 <= index →
  array_get index a =
    Normal (if decide (index < size a) then a else set_error a OUT_OF_BOUNDS,
            contents a !! Z.to_nat index) [].
Proof.
  intros Hc He Hidx. destruct (decide (index < size a)) as [Hin|Hout].
  - destruct (array_get_inside index a Hc He) as (x & -> & ->); [lia|done].
  - rewrite array_get_out_of_bounds by (done || lia).
    rewrite lookup_ge_None_2; [done|].
    pose proof (length_contents a Hc). lia.
Qed.

(** X2: SetAt at a valid index overwrites that element and nothing else:
    size, capacity and the flag stay, no allocator is called, GetAt at the
    same index reads the new value and GetAt at any other index reads what
    it read before. *)
Theorem array_set_then_get index v (a : array_struct T) :
  consistent a → error a = OK_ERROR → 0 <= index < size a →
  ∃ a', array_set index v a = Normal a' [] ∧
        error a' = OK_ERROR ∧ size a' = size a ∧ capacity a' = capacity a ∧
        contents a' = <[Z.to_nat index := v]> (contents a) ∧
        array_get index a' = Normal (a', Some v) [] ∧
        ∀ j x, 0 <= j → j ≠ index →
          array_get j a = Normal (a, Some x) [] →
          array_get j a' = Normal (a', Some x) [].
Proof.
  intros Hc He Hin.
  destruct (array_set_inside index v a Hc He Hin)
    as (a' & Hset & Hc' & He' & Hsz' & Hcap' & _ & Hcont').
  pose proof (length_contents a Hc) as Hlen.
  exists a'. do 5 (split; [done|]). split.
  - destruct (array_get_inside index a' Hc' He') as (x & Hx & ->); [lia|].
    rewrite Hcont', list_lookup_insert_eq in Hx by lia. congruence.
  - intros j x Hj Hne Hget.
    destruct (decide (j < size a)) as [Hlt|Hge].
    + destruct (array_get_inside j a Hc He) as (y & Hy & Hget'); [lia|].
      rewrite Hget in Hget'. injection Hget' as ->.
      destruct (array_get_inside j a' Hc' He') as (z & Hz & ->); [lia|].
      rewrite Hcont', list_lookup_insert_ne in Hz by lia. congruence.
    + rewrite array_get_out_of_bounds in Hget by (done || lia). done.
Qed.

(** X3: InsertAt at an index in [0, size] on a consistent struct with
    error = Ok, when the allocator grants the reallocation that a full
    array asks for. The call returns with the flag Ok; its only call to
    the allocator is that reallocation, made exactly when the array was
    full, and the capacity is then twice the old one; the size is one
    more; the elements are the old ones with the value put in at the
    index: those before it stay, those from it on move up by one. *)
Theorem insert_at_shifts_the_tail r index v (a : array_struct T) :
  consistent a → error a = OK_ERROR → 0 <= index <= size a →
  (size a = capacity a → grants r (Z.pos sizeof * (capacity a * 2))) →
  ∃ a',
    array_add_index r index v a =
      Normal a' (if decide (size a = capacity a)
                 then [Granted (Z.pos sizeof * (capacity a * 2))] else []) ∧
    error a' = OK_ERROR ∧ size a' = size a + 1 ∧
    capacity a' =
      (if decide (size a = capacity a) then capacity a * 2 else capacity a) ∧
    contents a' =
      take (Z.to_nat index) (contents a) ++
      v :: drop (Z.to_nat index) (contents a).
Proof.
  intros Hc He Hin Hg.
  destruct (array_add_index_granted_reply r index v a Hc He Hin Hg)
    as (a' & Hrun & He' & _ & Hsz' & _ & Hcap' & Hcont').
  by exists a'.
Qed.

(** X4: RemoveAt at an index in [0, size) on a consistent struct with
    error = Ok, when the allocator grants the reallocation that the
    shrink asks for. The call returns with the flag Ok; its only call to
    the allocator is that reallocation, made exactly when the new size is
    half the capacity and the capacity is not the floor, and the capacity
    is then half the old one; the size is one less; the elements are the
    old ones without the one at the index: those before it stay, those
    after it move down by one. *)
Theorem remove_at_closes_the_gap r index (a : array_struct T) :
  consistent a → error a = OK_ERROR → 0 <= index < size a →
  (size a - 1 = capacity a / 2 → capacity a ≠ min_capacity a →
   grants r (Z.pos sizeof * (capacity a / 2))) →
  ∃ a',
    array_remove_index r index a =
      Normal a'
        (if decide (size a - 1 = capacity a / 2 ∧ capacity a ≠ min_capacity a)
         then [Granted (Z.pos sizeof * (capacity a / 2))] else []) ∧
    error a' = OK_ERROR ∧ size a' = size a - 1 ∧
    capacity a' =
      (if decide (size a - 1 = capacity a / 2 ∧ capacity a ≠ min_capacity a)
       then capacity a / 2 else capacity a) ∧
    contents a' =
      take (Z.to_nat index) (contents a) ++
      drop (S (Z.to_nat index)) (contents a).
Proof.
  intros Hc He Hin Hg.
  destruct (array_remove_index_granted_reply r index a Hc He Hin Hg)
    as (a' & Hrun & He' & _ & Hsz' & _ & Hcap' & Hcont').
  by exists a'.
Qed.

(** X5: RemoveLast on a non-empty consistent struct with error = Ok, when
    the allocator grants the reallocation that the shrink asks for. The
    call returns with the flag Ok; its only call to the allocator is that
    reallocation, made exactly when the new size is half the capacity and
    the capacity is not the floor, and the capacity is then half the old
    one; the size is one less; the elements are the old ones without the
    last. *)
Theorem remove_last_drops_the_last r (a : array_struct T) :
  consistent a → error a = OK_ERROR → 0 < size a →
  (size a - 1 = capacity a / 2 → capacity a ≠ min_capacity a →
   grants r (Z.pos sizeof * (capacity a / 2))) →
  ∃ a',
    array_remove r a =
      Normal a'
        (if decide (size a - 1 = capacity a / 2 ∧ capacity a ≠ min_capacity a)
         then [Granted (Z.pos sizeof * (capacity a / 2))] else []) ∧
    error a' = OK_ERROR ∧ size a' = size a - 1 ∧
    capacity a' =
      (if decide (size a - 1 = capacity a / 2 ∧ capacity a ≠ min_capacity a)
       then capacity a / 2 else capacity a) ∧
    contents a' = take (Z.to_nat (size a - 1)) (contents a).
Proof.
  intros Hc He Hpos Hg. unfold array_remove.
  destruct (decide (error a = OK_ERROR)); [|done].
  destruct (decide (size a > 0)); [|lia].
  destruct (shrink_after_decrement_granted_reply r a Hc He Hpos Hg)
    as (a' & Hrun & He' & _ & Hsz' & _ & Hcap' & Hcont').
  by exists a'.
Qed.

(** X6: InsertAt at an index in [0, size] followed by RemoveAt at the same
    index: both calls return, and unless an allocation was refused the
    array has the elements and the size it had before, with the flag Ok. *)
Theorem insert_then_remove_at_same_index r1 r2 index v (a : array_struct T) :
  consistent a → error a = OK_ERROR → 0 <= index <= size a →
  ∃ a1 log1 a2 log2,
    array_add_index r1 index v a = Normal a1 log1 ∧
    array_remove_index r2 index a1 = Normal a2 log2 ∧
    (all_granted (log1 ++ log2) →
       error a2 = OK_ERROR ∧ size a2 = size a ∧ contents a2 = contents a).
Proof.
  intros Hc He Hin.
  pose proof (length_contents a Hc) as Hlen.
  destruct (array_add_index_inside r1 index v a Hc He Hin)
    as (a1 & log1 & Hrun1 & [[Hoom Hnot]|(_ & He1 & Hc1 & Hsz1 & _ & _ & Hcont1)]).
  - exists a1, log1, a1, []. split; [done|].
    split; [apply array_remove_index_sticky; congruence|].
    rewrite all_granted_app. tauto.
  - destruct (array_remove_index_inside r2 index a1 Hc1 He1)
      as (a2 & log2 & Hrun2 & Hsz2 & _ & _ & [[_ Hnot]|(_ & He2 & _ & Hcont2)]);
      [lia| |].
    + exists a1, log1, a2, log2. split; [done|]. split; [done|].
      rewrite all_granted_app. tauto.
    + exists a1, log1, a2, log2. split; [done|]. split; [done|].
      intros _. split; [done|]. split; [lia|].
      rewrite Hcont2, Hcont1.
      assert (length (take (Z.to_nat index) (contents a)) = Z.to_nat index)
        as Hlk by (rewrite length_take; lia).
      rewrite take_app_length' by done.
      rewrite drop_app_ge by lia. rewrite Hlk.
      replace (S (Z.to_nat index) - Z.to_nat index)%nat with 1%nat by lia.
      cbn. rewrite drop_0. apply take_drop.
Qed.

(** X7: no hysteresis at the boundary. Append to a full consistent
    struct with error = Ok and then RemoveLast, when the allocator grants
    the doubling the first asks for and the halving the second asks for:
    both calls return, the first doubled the capacity with one
    reallocation and the second halved it again with another, and the
    flag is Ok with size, capacity and elements the ones before the two
    calls. *)
Theorem append_then_remove_last_when_full r1 r2 v (a : array_struct T) :
  consistent a → error a = OK_ERROR → size a = capacity a →
  grants r1 (Z.pos sizeof * (capacity a * 2)) →
  grants r2 (Z.pos sizeof * capacity a) →
  ∃ a1 a2,
    array_add r1 v a =
      Normal a1 [Granted (Z.pos sizeof * (capacity a * 2))] ∧
    capacity a1 = capacity a * 2 ∧
    array_remove r2 a1 = Normal a2 [Granted (Z.pos sizeof * capacity a)] ∧
    error a2 = OK_ERROR ∧ size a2 = size a ∧ capacity a2 = capacity a ∧
    contents a2 = contents a.
Proof.
  intros Hc He Hfull Hg1 Hg2.
  pose proof (length_contents a Hc) as Hlen.
  pose proof (consistent_capacity_pos a Hc) as Hpos.
  assert (min_capacity a <= capacity a) as Hfloor.
  { destruct Hc as [_ _ Hmin [k Hk] _ _].
    assert (0 < 2 ^ Z.of_nat k) by (apply Z.pow_pos_nonneg; lia). nia. }
  destruct (array_add_granted_reply r1 v a Hc He (λ _, Hg1))
    as (a1 & Hrun1 & He1 & Hc1 & Hsz1 & Hmin1 & Hcap1 & Hcont1).
  destruct (decide (size a = capacity a)) as [_|?]; [|done].
  assert (array_remove r2 a1 = shrink_after_decrement r2 a1) as Hrem.
  { unfold array_remove. destruct (decide (error a1 = OK_ERROR)); [|done].
    destruct (decide (size a1 > 0)); [done|lia]. }
  assert (capacity a1 / 2 = capacity a) as Hhalf
    by (rewrite Hcap1; apply Z.div_mul; lia).
  destruct (shrink_after_decrement_granted_reply r2 a1 Hc1 He1)
    as (a2 & Hrun2 & He2 & _ & Hsz2 & _ & Hcap2 & Hcont2);
    [lia|by intros _ _; rewrite Hhalf|].
  destruct (decide (size a1 - 1 = capacity a1 / 2 ∧
                    capacity a1 ≠ min_capacity a1)) as [_|Hno]; [|lia].
  exists a1, a2. split; [done|]. split; [done|].
  split; [by rewrite Hrem, Hrun2, Hhalf|].
  split; [done|]. split; [lia|]. split; [lia|].
  rewrite Hcont2, Hcont1, Hsz1.
  replace (size a + 1 - 1) with (size a) by lia.
  apply take_app_length'. lia.
Qed.

End ElementsOfOneCall.

Lemma array_get_reads_contents_witness :
  array_get 1 three_of_four = Normal (three_of_four, Some 20) [] ∧
  array_get 3 three_of_four =
    Normal (set_error three_of_four OUT_OF_BOUNDS, None) [].
Proof.
  assert (consistent three_of_four) as Hc by consistent_by_computation 1%nat.
  split.
  - apply (array_get_reads_contents 1 three_of_four Hc); [reflexivity|lia].
  - apply (array_get_reads_contents 3 three_of_four Hc); [reflexivity|lia].
Defined.

Lemma array_set_then_get_witness :
  ∃ a', array_set 1 25 three_of_four = Normal a' [] ∧
        error a' = OK_ERROR ∧ size a' = 3 ∧ capacity a' = 4 ∧
        contents a' = [10; 25; 30] ∧
        array_get 1 a' = Normal (a', Some 25) [] ∧
        ∀ j x, 0 <= j → j ≠ 1 →
          array_get j three_of_four = Normal (three_of_four, Some x) [] →
          array_get j a' = Normal (a', Some x) [].
Proof.
  apply (array_set_then_get 1 25 three_of_four).
  - consistent_by_computation 1%nat.
  - reflexivity.
  - simpl. lia.
Defined.

Lemma insert_at_shifts_the_tail_witness :
  (∃ a', array_add_index grant 1 15 full4 = Normal a' [Granted 32] ∧
     error a' = OK_ERROR ∧ size a' = 5 ∧ capacity a' = 8 ∧
     contents a' = [10; 15; 20; 30; 40]) ∧
  (∃ a', array_add_index AllocFail 1 15 three_of_four = Normal a' [] ∧
     error a' = OK_ERROR ∧ size a' = 4 ∧ capacity a' = 4 ∧
     contents a' = [10; 15; 20; 30]).
Proof.
  assert (consistent full4) as Hc4 by consistent_by_computation 2%nat.
  assert (consistent three_of_four) as Hc3 by consistent_by_computation 1%nat.
  assert (0 <= 1 <= size full4) as Hin4 by (simpl; lia).
  assert (0 <= 1 <= size three_of_four) as Hin3 by (simpl; lia).
  assert (size full4 = capacity full4 →
          grants grant (Z.pos sizeof * (capacity full4 * 2))) as Hg4
    by (intros _; grants_by_computation).
  assert (size three_of_four = capacity three_of_four →
          grants AllocFail (Z.pos sizeof * (capacity three_of_four * 2))) as Hg3
    by (intros Hfull; discriminate Hfull).
  split.
  - exact (insert_at_shifts_the_tail grant 1 15 full4 Hc4 eq_refl Hin4 Hg4).
  - exact (insert_at_shifts_the_tail AllocFail 1 15 three_of_four Hc3 eq_refl
             Hin3 Hg3).
Defined.

Lemma remove_at_closes_the_gap_witness :
  (∃ a', array_remove_index grant 0 three_of_four = Normal a' [Granted 8] ∧
     error a' = OK_ERROR ∧ size a' = 2 ∧ capacity a' = 2 ∧
     contents a' = [20; 30]) ∧
  (∃ a', array_remove_index AllocFail 2 full4 = Normal a' [] ∧
     error a' = OK_ERROR ∧ size a' = 3 ∧ capacity a' = 4 ∧
     contents a' = [10; 20; 40]).
Proof.
  assert (consistent three_of_four) as Hc3 by consistent_by_computation 1%nat.
  assert (consistent full4) as Hc4 by consistent_by_computation 2%nat.
  assert (0 <= 0 < size three_of_four) as Hin3 by (simpl; lia).
  assert (0 <= 2 < size full4) as Hin4 by (simpl; lia).
  assert (size three_of_four - 1 = capacity three_of_four / 2 →
          capacity three_of_four ≠ min_capacity three_of_four →
          grants grant (Z.pos sizeof * (capacity three_of_four / 2))) as Hg3
    by (intros _ _; grants_by_computation).
  assert (size full4 - 1 = capacity full4 / 2 →
          capacity full4 ≠ min_capacity full4 →
          grants AllocFail (Z.pos sizeof * (capacity full4 / 2))) as Hg4
    by (intros Hhalf; discriminate Hhalf).
  split.
  - exact (remove_at_closes_the_gap grant 0 three_of_four Hc3 eq_refl Hin3 Hg3).
  - exact (remove_at_closes_the_gap AllocFail 2 full4 Hc4 eq_refl Hin4 Hg4).
Defined.

Lemma remove_last_drops_the_last_witness :
  (∃ a', array_remove grant three_of_four = Normal a' [Granted 8] ∧
     error a' = OK_ERROR ∧ size a' = 2 ∧ capacity a' = 2 ∧
     contents a' = [10; 20]) ∧
  (∃ a', array_remove AllocFail full4 = Normal a' [] ∧
     error a' = OK_ERROR ∧ size a' = 3 ∧ capacity a' = 4 ∧
     contents a' = [10; 20; 30]).
Proof.
  assert (consistent three_of_four) as Hc3 by consistent_by_computation 1%nat.
  assert (consistent full4) as Hc4 by consistent_by_computation 2%nat.
  assert (0 < size three_of_four) as Hpos3 by (simpl; lia).
  assert (0 < size full4) as Hpos4 by (simpl; lia).
  assert (size three_of_four - 1 = capacity three_of_four / 2 →
          capacity three_of_four ≠ min_capacity three_of_four →
          grants grant (Z.pos sizeof * (capacity three_of_four / 2))) as Hg3
    by (intros _ _; grants_by_computation).
  assert (size full4 - 1 = capacity full4 / 2 →
          capacity full4 ≠ min_capacity full4 →
          grants AllocFail (Z.pos sizeof * (capacity full4 / 2))) as Hg4
    by (intros Hhalf; discriminate Hhalf).
  split.
  - exact (remove_last_drops_the_last grant three_of_four Hc3 eq_refl Hpos3 Hg3).
  - exact (remove_last_drops_the_last AllocFail full4 Hc4 eq_refl Hpos4 Hg4).
Defined.

Lemma insert_then_remove_at_same_index_witness :
  ∃ a1 log1 a2 log2,
    array_add_index grant 1 15 three_of_four = Normal a1 log1 ∧
    array_remove_index grant 1 a1 = Normal a2 log2 ∧
    (all_granted (log1 ++ log2) →
       error a2 = OK_ERROR ∧ size a2 = 3 ∧ contents a2 = [10; 20; 30]).
Proof.
  apply (insert_then_remove_at_same_index grant grant 1 15 three_of_four).
  - consistent_by_computation 1%nat.
  - reflexivity.
  - simpl. lia.
Defined.

Lemma append_then_remove_last_when_full_witness :
  ∃ a1 a2,
    array_add grant 50 full4 = Normal a1 [Granted 32] ∧
    capacity a1 = 8 ∧
    array_remove grant a1 = Normal a2 [Granted 16] ∧
    error a2 = OK_ERROR ∧ size a2 = 4 ∧ capacity a2 = 4 ∧
    contents a2 = [10; 20; 30; 40].
Proof.
  assert (consistent full4) as Hc by consistent_by_computation 2%nat.
  assert (grants grant (Z.pos sizeof * (capacity full4 * 2))) as Hg1
    by grants_by_computation.
  assert (grants grant (Z.pos sizeof * capacity full4)) as Hg2
    by grants_by_computation.
  exact (append_then_remove_last_when_full grant grant 50 full4 Hc
           eq_refl eq_refl Hg1 Hg2).
Defined.

(** ** Whole runs *)

Section Runs.
Context {T : Type} `{CType T}.

(** A run from a consistent struct returns; its flag is OutOfMemory
    exactly when an allocation was refused, and otherwise the struct it
    ends in is consistent. *)
Lemma run_ops_step l (a : array_struct T) :
  consistent a →
  ∃ a' log, run_ops l a = Normal a' log ∧
    ((error a' = OUT_OF_MEM ∧ ¬ all_granted log) ∨
     (all_granted log ∧ consistent a')).
Proof.
  revert a. induction l as [|[r o] l IH]; intros a Hc.
  - exists a, []. split; [done|]. right. split; [apply all_granted_nil|done].
  - cbn [run_ops].
    destruct (run_op_step r o a Hc) as (a1 & log1 & -> & [[Hoom Hnot]|[Hall Hc1]]).
    + cbn [mbind exec_bind]. rewrite run_ops_sticky by congruence.
      eexists _, _. split; [done|]. left. split; [done|].
      rewrite all_granted_app. tauto.
    + cbn [mbind exec_bind].
      destruct (IH a1 Hc1) as (a2 & log2 & -> & [[Hoom Hnot]|[Hall2 Hc2]]).
      * eexists _, _. split; [done|]. left. split; [done|].
        rewrite all_granted_app. tauto.
      * eexists _, _. split; [done|]. right. split; [|done].
        by apply all_granted_app.
Qed.

(** The same for a run that starts with [array_init]. *)
Lemma init_run_step r0 c (a0 : array_struct T) l :
  1 <= c →
  ∃ a log, (a1 ← array_init r0 c a0; run_ops l a1) = Normal a log ∧
    ((error a = OUT_OF_MEM ∧ ¬ all_granted log) ∨
     (all_granted log ∧ consistent a)).
Proof.
  intros Hc.
  destruct (array_init_returns r0 c a0) as (a1 & log0 & Hinit).
  rewrite Hinit. cbn [mbind exec_bind].
  destruct (array_init_cases r0 c a0 a1 log0 Hinit) as [Hall0|[Hoom Hnot]].
  - pose proof (array_init_consistent r0 c a0 a1 log0 Hc Hinit Hall0) as Hc1.
    destruct (run_ops_step l a1 Hc1) as (a & log & -> & [[Hoom Hnot]|[Hall Hca]]).
    + eexists _, _. split; [done|]. left. split; [done|].
      rewrite all_granted_app. tauto.
    + eexists _, _. split; [done|]. right. split; [|done].
      by apply all_granted_app.
  - rewrite run_ops_sticky by congruence.
    eexists _, _. split; [done|]. left. split; [done|].
    rewrite all_granted_app. tauto.
Qed.

(** X8: memory safety. Initialize with at least one slot and any
    operations in any order with any arguments, whatever the allocator
    answers to each call: the run returns, that is, no operation reads or
    writes outside the block. *)
Theorem runs_stay_inside_the_block r0 c (a0 : array_struct T) l :
  1 <= c →
  ∃ a log, (a1 ← array_init r0 c a0; run_ops l a1) = Normal a log.
Proof.
  intros Hc. destruct (init_run_step r0 c a0 l Hc) as (a & log & Hrun & _).
  by exists a, log.
Qed.

(** X9: at the end of such a run the flag is OutOfMemory if and only if
    one of the allocations of the run was refused. *)
Theorem out_of_mem_iff_refused r0 c (a0 a : array_struct T) l log :
  1 <= c →
  (a1 ← array_init r0 c a0; run_ops l a1) = Normal a log →
  error a = OUT_OF_MEM ↔ ¬ all_granted log.
Proof.
  intros Hc Hrun.
  destruct (init_run_step r0 c a0 l Hc) as (a' & log' & Hrun' & Hcases).
  rewrite Hrun in Hrun'. injection Hrun' as <- <-.
  destruct Hcases as [[Hoom Hnot]|[Hall Hca]]; [done|].
  split; [|done]. intros Hoom. by destruct Hca.
Qed.

(** X14: in every reachable state [buf] is a block of exactly [capacity]
    slots, of which the first [size] are in use, its size in bytes is
    within [PTRDIFF_MAX], and the flag is not OutOfMemory. *)
Theorem reachable_block_has_capacity_slots (a : array_struct T) :
  reachable a →
  ∃ l, buf a = Some l ∧ Z.of_nat (length l) = capacity a ∧
       0 <= size a <= capacity a ∧
       Z.pos sizeof * capacity a <= PTRDIFF_MAX ∧
       error a ≠ OUT_OF_MEM.
Proof.
  intros Hreach. apply reachable_consistent in Hreach.
  destruct Hreach as [(l & Hb & Hlen) Hsz _ _ Hfit Hno]. by exists l.
Qed.

End Runs.

Lemma runs_stay_inside_the_block_witness :
  ∃ a log,
    (a1 ← array_init grant 1 stale;
     run_ops [(grant, Append 1); (AllocFail, InsertAt 0 2); (grant, RemoveAt 7)]
             a1) = Normal a log.
Proof.
  apply (runs_stay_inside_the_block grant 1 stale). lia.
Defined.

Lemma out_of_mem_iff_refused_witness :
  error (mk_array (Some [1]) 2 1 1 OUT_OF_MEM) = OUT_OF_MEM ↔
  ¬ all_granted [Granted 4; Refused 8].
Proof.
  apply (out_of_mem_iff_refused grant 1 stale _
           [(grant, Append 1); (AllocFail, InsertAt 0 2); (grant, RemoveAt 7)]).
  - lia.
  - reflexivity.
Defined.

Lemma reachable_block_has_capacity_slots_witness :
  ∃ l, Some [0; 0] = Some l ∧ Z.of_nat (length l) = 2 ∧
       0 <= 0 <= 2 ∧ 4 * 2 <= PTRDIFF_MAX ∧ OK_ERROR ≠ OUT_OF_MEM.
Proof.
  assert (reachable (mk_array (Some [0; 0]) 2 0 2 OK_ERROR)) as Hreach.
  { apply (reachable_init grant 2 stale _ [Granted 8]).
    - lia.
    - reflexivity.
    - by repeat constructor. }
  exact (reachable_block_has_capacity_slots _ Hreach).
Defined.

(** ** How full the block is *)

Section Occupancy.
Context {T : Type} `{CType T}.

(** What an operation that ends with error = Ok did to size and capacity:
    one more element (with a doubling if the array was full), the same
    number, or one less (with a halving at the shrink test). *)
Lemma run_op_ok_sizes r o (a a' : array_struct T) log :
  consistent a → run_op r o a = Normal a' log → all_granted log →
  error a' = OK_ERROR →
  error a = OK_ERROR ∧
  min_capacity a' = min_capacity a ∧
  ((size a' = size a + 1 ∧
    capacity a' =
      (if decide (size a = capacity a) then capacity a * 2 else capacity a)) ∨
   (size a' = size a ∧ capacity a' = capacity a) ∨
   (0 < size a ∧ size a' = size a - 1 ∧
    capacity a' =
      (if decide (size a - 1 = capacity a / 2 ∧ capacity a ≠ min_capacity a)
       then capacity a / 2 else capacity a))).
Proof.
  intros Hc Hrun Hall He'.
  assert (error a = OK_ERROR) as He.
  { destruct (decide (error a = OK_ERROR)) as [|Hne]; [done|].
    rewrite run_op_sticky in Hrun by done. injection Hrun as <- _. done. }
  split; [done|].
  destruct o as [v|i v|i v|i| |i]; cbn [run_op] in Hrun.
  - destruct (array_add_granted r v a a' log Hc He Hrun Hall)
      as (_ & _ & Hsz & Hmin & Hcap & _). split; [done|]. by left.
  - destruct (decide (0 <= i ∧ i <= size a)) as [Hin|Hout].
    + destruct (array_add_index_inside r i v a Hc He Hin)
        as (a'' & log'' & Hrun' & Hcases).
      rewrite Hrun in Hrun'. injection Hrun' as <- <-.
      destruct Hcases as [[_ Hnot]|(_ & _ & _ & Hsz & Hmin & Hcap & _)]; [done|].
      split; [done|]. by left.
    + exfalso. unfold array_add_index in Hrun.
      destruct (decide (error a = OK_ERROR)); [|done].
      destruct (decide (size a = capacity a)).
      * apply bind_Normal in Hrun as (temp & log1 & log2 & _ & Hrun & _).
        destruct temp as [temp|].
        -- apply add_index_checked_error in Hrun as [(? & ? & _)|(_ & -> & _)];
             [cbn in *; lia|done].
        -- injection Hrun as <- _. done.
      * apply add_index_checked_error in Hrun as [(? & ? & _)|(_ & -> & _)];
          [lia|done].
  - destruct (decide (0 <= i ∧ i < size a)) as [Hin|Hout].
    + destruct (array_set_inside i v a Hc He Hin)
        as (a'' & Hrun' & _ & _ & Hsz & Hcap & Hmin & _).
      rewrite Hrun in Hrun'. injection Hrun' as <-.
      split; [done|]. right. by left.
    + rewrite array_set_out_of_bounds in Hrun by done.
      injection Hrun as <- _. done.
  - destruct (decide (0 <= i ∧ i < size a)) as [Hin|Hout].
    + destruct (array_get_inside i a Hc He Hin) as (x & _ & Hget).
      rewrite Hget in Hrun. injection Hrun as <- _.
      split; [done|]. right. by left.
    + rewrite array_get_out_of_bounds in Hrun by done.
      injection Hrun as <- _. done.
  - destruct (decide (0 < size a)) as [Hpos|Hempty].
    + unfold array_remove in Hrun.
      destruct (decide (error a = OK_ERROR)); [|done].
      destruct (decide (size a > 0)); [|lia].
      destruct (shrink_after_decrement_inside r a Hc He Hpos)
        as (a'' & log'' & Hrun' & Hsz & Hmin & Hcap & _).
      rewrite Hrun in Hrun'. injection Hrun' as <- <-.
      split; [done|]. right. by right.
    + rewrite array_remove_empty in Hrun by (done || lia).
      injection Hrun as <- _. done.
  - destruct (decide (0 <= i ∧ i < size a)) as [Hin|Hout].
    + destruct (array_remove_index_inside r i a Hc He Hin)
        as (a'' & log'' & Hrun' & Hsz & Hmin & Hcap & _).
      rewrite Hrun in Hrun'. injection Hrun' as <- <-.
      split; [done|]. right. right. split; [lia|done].
    + rewrite array_remove_index_out_of_bounds in Hrun by done.
      injection Hrun as <- _. done.
Qed.

(** X10: in every reachable state with error = Ok, the capacity is
    min_capacity or less than twice the size: above the floor, more than
    half of the block is always in use. *)
Theorem reachable_more_than_half_in_use (a : array_struct T) :
  reachable a → error a = OK_ERROR →
  capacity a = min_capacity a ∨ capacity a < 2 * size a.
Proof.
  induction 1 as [r c a0 a log Hc Hinit Hall|r o a a' log Hreach IH Hrun Hall];
    intros He.
  - destruct (array_init_success r c a0 a log Hinit Hall) as (-> & _). by left.
  - pose proof (reachable_consistent a Hreach) as Hca.
    destruct (run_op_ok_sizes r o a a' log Hca Hrun Hall He)
      as (Hea & Hmin' & Hsizes).
    specialize (IH Hea).
    destruct Hca as [_ Hsz Hmin [k Hk] _ _].
    destruct Hsizes as [[Hsz' Hcap']|[[Hsz' Hcap']|(Hpos & Hsz' & Hcap')]].
    + destruct (decide (size a = capacity a)); lia.
    + lia.
    + destruct k as [|k]; [cbn in Hk|].
      { destruct (decide _) as [[_ Hne]|_]; [lia|]. left. lia. }
      rewrite Nat2Z.inj_succ, Z.pow_succ_r in Hk by lia.
      assert (0 < 2 ^ Z.of_nat k) by (apply Z.pow_pos_nonneg; lia).
      assert (capacity a / 2 = min_capacity a * 2 ^ Z.of_nat k) as Hhalf.
      { rewrite Hk.
        replace (min_capacity a * (2 * 2 ^ Z.of_nat k))
          with (min_capacity a * 2 ^ Z.of_nat k * 2) by lia.
        by rewrite Z.div_mul by lia. }
      destruct (decide _) as [[Heq Hne]|Hkeep].
      * right. nia.
      * destruct IH as [IH|IH]; [left; lia|].
        destruct (decide (capacity a = min_capacity a)); [left; lia|].
        right. nia.
Qed.

End Occupancy.

Lemma reachable_more_than_half_in_use_witness :
  capacity (mk_array (Some [10; 20]) 2 2 1 OK_ERROR) =
    min_capacity (mk_array (Some [10; 20]) 2 2 1 OK_ERROR) ∨
  capacity (mk_array (Some [10; 20]) 2 2 1 OK_ERROR) <
    2 * size (mk_array (Some [10; 20]) 2 2 1 OK_ERROR).
Proof.
  assert (reachable (mk_array (Some [10; 20]) 2 2 1 OK_ERROR)) as Hreach.
  { apply (reachable_step grant (Append 20) (mk_array (Some [10]) 1 1 1 OK_ERROR)
             _ [Granted 8]).
    - apply (reachable_step grant (Append 10) (mk_array (Some [0]) 1 0 1 OK_ERROR)
               _ []).
      + apply (reachable_init grant 1 stale _ [Granted 4]).
        * lia.
        * reflexivity.
        * by repeat constructor.
      + reflexivity.
      + constructor.
    - reflexivity.
    - by repeat constructor. }
  exact (reachable_more_than_half_in_use _ Hreach eq_refl).
Defined.

(** ** The floor is never written *)

Section Floor.
Context {T : Type} `{CType T}.

Lemma add_tail_min_capacity v (a a' : array_struct T) log :
  add_tail v a = Normal a' log → min_capacity a' = min_capacity a.
Proof.
  unfold add_tail. intros Hrun.
  apply bind_Normal in Hrun as (p & log1 & log2 & _ & Hret & _).
  by injection Hret as <- _.
Qed.

Lemma add_index_checked_min_capacity index v (a a' : array_struct T) log :
  add_index_checked index v a = Normal a' log →
  min_capacity a' = min_capacity a.
Proof.
  unfold add_index_checked.
  destruct (decide (0 <= index ∧ index <= size a)).
  - intros Hrun.
    apply bind_Normal in Hrun as (p & log1 & log2 & _ & Hrun & _).
    apply bind_Normal in Hrun as (p' & log3 & log4 & _ & Hret & _).
    by injection Hret as <- _.
  - by intros [= <- _].
Qed.

Lemma shrink_after_decrement_min_capacity r (a a' : array_struct T) log :
  shrink_after_decrement r a = Normal a' log →
  min_capacity a' = min_capacity a.
Proof.
  unfold shrink_after_decrement.
  cbn [size capacity min_capacity buf set_size set_capacity].
  destruct (decide _).
  - unfold call_realloc. destruct (realloc r (buf a) _); cbn.
    + by intros [= <- _].
    + by intros [= <- _].
  - by intros [= <- _].
Qed.

Lemma run_op_min_capacity r o (a a' : array_struct T) log :
  run_op r o a = Normal a' log → min_capacity a' = min_capacity a.
Proof.
  intros Hrun. destruct o as [v|index v|index v|index| |index];
    cbn [run_op] in Hrun.
  - unfold array_add in Hrun.
    destruct (decide (error a = OK_ERROR)); [|by injection Hrun as <- _].
    destruct (decide (size a = capacity a)).
    + apply bind_Normal in Hrun as (temp & log1 & log2 & _ & Hrun & _).
      destruct temp as [temp|].
      * by apply add_tail_min_capacity in Hrun.
      * by injection Hrun as <- _.
    + by apply add_tail_min_capacity in Hrun.
  - unfold array_add_index in Hrun.
    destruct (decide (error a = OK_ERROR)); [|by injection Hrun as <- _].
    destruct (decide (size a = capacity a)).
    + apply bind_Normal in Hrun as (temp & log1 & log2 & _ & Hrun & _).
      destruct temp as [temp|].
      * by apply add_index_checked_min_capacity in Hrun.
      * by injection Hrun as <- _.
    + by apply add_index_checked_min_capacity in Hrun.
  - unfold array_set in Hrun.
    destruct (decide (error a = OK_ERROR)); [|by injection Hrun as <- _].
    destruct (decide (0 <= index ∧ index < size a)).
    + apply bind_Normal in Hrun as (p & log1 & log2 & _ & Hret & _).
      by injection Hret as <- _.
    + by injection Hrun as <- _.
  - apply bind_Normal in Hrun as (res & log1 & log2 & Hget & Hret & _).
    injection Hret as <- _. unfold array_get in Hget.
    destruct (decide (error a = OK_ERROR)); [|by injection Hget as <- _].
    destruct (decide (0 <= index ∧ index < size a)).
    + apply bind_Normal in Hget as (x & log3 & log4 & _ & Hret & _).
      by injection Hret as <- _.
    + by injection Hget as <- _.
  - unfold array_remove in Hrun.
    destruct (decide (error a = OK_ERROR)); [|by injection Hrun as <- _].
    destruct (decide (size a > 0)).
    + by apply shrink_after_decrement_min_capacity in Hrun.
    + by injection Hrun as <- _.
  - unfold array_remove_index in Hrun.
    destruct (decide (error a = OK_ERROR)); [|by injection Hrun as <- _].
    destruct (decide (size a > 0 ∧ 0 <= index ∧ index < size a)).
    + apply bind_Normal in Hrun as (p & log1 & log2 & _ & Hrun & _).
      by apply shrink_after_decrement_min_capacity in Hrun.
    + by injection Hrun as <- _.
Qed.

(** X11: no operation writes min_capacity. Whatever the struct holds
    (consistent or not), whatever the operations, their arguments and the
    allocator's answers, a run that returns ends with the min_capacity it
    started with. *)
Theorem runs_keep_min_capacity l (a a' : array_struct T) log :
  run_ops l a = Normal a' log → min_capacity a' = min_capacity a.
Proof.
  revert a log. induction l as [|[r o] l IH]; intros a log Hrun.
  - by injection Hrun as <- _.
  - cbn [run_ops] in Hrun.
    apply bind_Normal in Hrun as (a1 & log1 & log2 & Hop & Hrest & _).
    rewrite (IH a1 log2 Hrest). by eapply run_op_min_capacity.
Qed.

(** X12: RemoveAt at the last index is RemoveLast: for every struct whose
    size is a non-zero 64-bit value and every answer of the allocator the
    two calls have the same outcome. *)
Theorem remove_at_last_is_remove_last r (a : array_struct T) :
  0 < size a < 2 ^ 64 →
  array_remove_index r (size a - 1) a = array_remove r a.
Proof.
  intros Hsz. unfold array_remove_index, array_remove.
  destruct (decide (error a = OK_ERROR)); [|done].
  destruct (decide (size a > 0 ∧ 0 <= size a - 1 ∧ size a - 1 < size a));
    [|lia].
  destruct (decide (size a > 0)); [|lia].
  rewrite (wrap64_small (size a - 1)) by lia.
  unfold shift_left. replace (Z.to_nat (size a - 1 - (size a - 1))) with 0%nat by lia.
  cbn [shift_left_loop mbind exec_bind mret exec_ret].
  assert (set_buf a (buf a) = a) as -> by (by destruct a).
  by destruct (shrink_after_decrement r a).
Qed.

(** X13: the documented lower bound of [init_capacity] matters. After a
    granted Initialize with capacity 0, no Append stores its value: it
    either writes outside the zero-slot block (when the allocator hands a
    block back for the zero-byte request) or reports OutOfMemory. *)
Theorem init_zero_then_append r0 (a0 a1 : array_struct T) log0 r v :
  array_init r0 0 a0 = Normal a1 log0 → all_granted log0 →
  array_add r v a1 = Undef ∨
  array_add r v a1 = Normal (set_error a1 OUT_OF_MEM) [Refused 0].
Proof.
  intros Hinit Hall.
  destruct (array_init_success r0 0 a0 a1 log0 Hinit Hall) as (-> & _).
  destruct r as [|junk]; [right|left]; reflexivity.
Qed.

End Floor.

Lemma runs_keep_min_capacity_witness :
  min_capacity (mk_array (Some [10; 15; 20; 30]) 4 4 2 OK_ERROR) =
  min_capacity three_of_four.
Proof.
  apply (runs_keep_min_capacity [(grant, InsertAt 1 15)] three_of_four _ []).
  reflexivity.
Defined.

Lemma remove_at_last_is_remove_last_witness :
  array_remove_index grant (size three_of_four - 1) three_of_four =
  array_remove grant three_of_four.
Proof.
  apply (remove_at_last_is_remove_last grant three_of_four). simpl. lia.
Defined.

Lemma init_zero_then_append_witness :
  array_add grant 5 (mk_array (Some []) 0 0 0 OK_ERROR) = Undef ∨
  array_add grant 5 (mk_array (Some []) 0 0 0 OK_ERROR) =
    Normal (set_error (mk_array (Some []) 0 0 0 OK_ERROR) OUT_OF_MEM)
           [Refused 0].
Proof.
  apply (init_zero_then_append grant stale _ [Granted 0] grant 5).
  - reflexivity.
  - by repeat constructor.
Defined.

(** ** How often a run of appends reallocates *)

Section Amortised.
Context {T : Type} `{CType T}.

(** Appends in a row from a consistent struct: each reallocation doubles
    the capacity, and after the first one less than two slots are
    allocated per element. *)
Lemma appends_count (rvs : list (alloc_reply * T)) (a : array_struct T) :
  consistent a → error a = OK_ERROR →
  ∃ a' log, run_ops (appends rvs) a = Normal a' log ∧
    ((error a' = OUT_OF_MEM ∧ ¬ all_granted log) ∨
     (all_granted log ∧
      size a' = size a + Z.of_nat (length rvs) ∧
      capacity a' = capacity a * 2 ^ Z.of_nat (length log) ∧
      (log = [] ∨ capacity a' < 2 * size a'))).
Proof.
  revert a. induction rvs as [|[r v] rvs IH]; intros a Hc He.
  - exists a, []. split; [done|]. right. cbn.
    split; [apply all_granted_nil|]. split; [lia|]. split; [lia|by left].
  - cbn [appends map run_ops run_op fst snd].
    change (map (λ rv, (rv.1, Append rv.2)) rvs) with (appends rvs).
    destruct (array_add_step r v a Hc He)
      as (a1 & log1 & -> &
          [[Hoom Hnot]|(Hall1 & He1 & Hc1 & Hsz1 & _ & Hcap1 & Hlog1 & _)]).
    + cbn [mbind exec_bind]. rewrite run_ops_sticky by congruence.
      eexists _, _. split; [done|]. left. split; [done|].
      rewrite all_granted_app. tauto.
    + cbn [mbind exec_bind].
      destruct (IH a1 Hc1 He1)
        as (a2 & log2 & -> & [[Hoom Hnot]|(Hall2 & Hsz2 & Hcap2 & Hocc2)]).
      * eexists _, _. split; [done|]. left. split; [done|].
        rewrite all_granted_app. tauto.
      * eexists _, _. split; [done|]. right.
        split; [by apply all_granted_app|].
        split; [cbn [length]; lia|].
        rewrite length_app, Nat2Z.inj_add, Z.pow_add_r by lia.
        destruct (decide (size a = capacity a)) as [Hfull|Hroom].
        -- rewrite Hlog1. cbn [length].
           split; [rewrite Hcap2, Hcap1; cbn; lia|].
           right. destruct Hocc2 as [->|Hocc2]; [|done].
           cbn in Hcap2. lia.
        -- rewrite Hlog1. cbn [length app].
           split; [rewrite Hcap2, Hcap1; cbn; lia|].
           destruct Hocc2 as [->|Hocc2]; [by left|by right].
Qed.

(** X15: Initialize with [c >= 1] slots and append [n] values. The run
    returns; if no allocation was refused it made [k] reallocations (after
    the one allocation of Initialize), the capacity is [c * 2^k], and
    either [k = 0] or [c * 2^k < 2 * n]: the number of reallocations is
    logarithmic in the number of appends. *)
Theorem appends_reallocate_by_doubling r0 c (a0 : array_struct T)
    (rvs : list (alloc_reply * T)) :
  1 <= c →
  ∃ a log,
    (a1 ← array_init r0 c a0; run_ops (appends rvs) a1) = Normal a log ∧
    (all_granted log →
       ∃ k : nat,
         length log = S k ∧
         capacity a = c * 2 ^ Z.of_nat k ∧
         (k = 0%nat ∨ c * 2 ^ Z.of_nat k < 2 * Z.of_nat (length rvs))).
Proof.
  intros Hc.
  destruct (array_init_returns r0 c a0) as (a1 & log0 & Hinit).
  rewrite Hinit. cbn [mbind exec_bind].
  destruct (array_init_cases r0 c a0 a1 log0 Hinit) as [Hall0|[Hoom Hnot]].
  - pose proof (array_init_consistent r0 c a0 a1 log0 Hc Hinit Hall0) as Hc1.
    destruct (array_init_success r0 c a0 a1 log0 Hinit Hall0) as (Ha1 & _ & Hlog0).
    assert (error a1 = OK_ERROR ∧ size a1 = 0 ∧ capacity a1 = c)
      as (He1 & Hsz1 & Hcap1) by (by rewrite Ha1).
    destruct (appends_count rvs a1 Hc1 He1)
      as (a & log & -> & [[Hoom Hnot]|(Hall & Hsz & Hcap & Hocc)]).
    + eexists _, _. split; [done|]. rewrite all_granted_app. tauto.
    + eexists _, _. split; [done|]. intros _.
      exists (length log). rewrite Hlog0. split; [done|].
      split; [by rewrite Hcap, Hcap1|].
      destruct Hocc as [->|Hocc]; [by left|right].
      rewrite <- Hcap1, <- Hcap. lia.
  - rewrite run_ops_sticky by congruence.
    eexists _, _. split; [done|]. rewrite all_granted_app. tauto.
Qed.

End Amortised.

Lemma appends_reallocate_by_doubling_witness :
  ∃ a log,
    (a1 ← array_init grant 1 stale;
     run_ops (appends [(grant, 10); (grant, 20); (grant, 30)]) a1)
      = Normal a log ∧
    (all_granted log →
       ∃ k : nat,
         length log = S k ∧
         capacity a = 1 * 2 ^ Z.of_nat k ∧
         (k = 0%nat ∨ 1 * 2 ^ Z.of_nat k < 2 * 3)).
Proof.
  apply (appends_reallocate_by_doubling grant 1 stale
           [(grant, 10); (grant, 20); (grant, 30)]).
  lia.
Defined.

(** ** What array_free finds *)

Section Release.
Context {T : Type} `{CType T}.

Lemma store_keeps_block (p p' : option (list T)) i x log :
  store p i x = Normal p' log → is_Some p'.
Proof.
  unfold store. destruct p as [l|]; [|done].
  destruct (decide _); [|done]. intros [= <- _]. by eexists.
Qed.

Lemma shift_right_loop_keeps_block fuel (p p' : option (list T)) i index log :
  shift_right_loop fuel p i index = Normal p' log → is_Some p → is_Some p'.
Proof.
  revert p i log. induction fuel as [|fuel IH]; intros p i log Hrun Hp.
  - by injection Hrun as <- _.
  - cbn [shift_right_loop] in Hrun. destruct (decide (index < i)).
    + apply bind_Normal in Hrun as (x & log1 & log2 & _ & Hrun & _).
      apply bind_Normal in Hrun as (p1 & log3 & log4 & Hst & Hrun & _).
      apply (IH _ _ _ Hrun). by eapply store_keeps_block.
    + by injection Hrun as <- _.
Qed.

Lemma shift_left_loop_keeps_block fuel (p p' : option (list T)) i bound log :
  shift_left_loop fuel p i bound = Normal p' log → is_Some p → is_Some p'.
Proof.
  revert p i log. induction fuel as [|fuel IH]; intros p i log Hrun Hp.
  - by injection Hrun as <- _.
  - cbn [shift_left_loop] in Hrun. destruct (decide (i < bound)).
    + apply bind_Normal in Hrun as (x & log1 & log2 & _ & Hrun & _).
      apply bind_Normal in Hrun as (p1 & log3 & log4 & Hst & Hrun & _).
      apply (IH _ _ _ Hrun). by eapply store_keeps_block.
    + by injection Hrun as <- _.
Qed.

Lemma add_tail_keeps_block v (a a' : array_struct T) log :
  add_tail v a = Normal a' log → is_Some (buf a').
Proof.
  unfold add_tail. intros Hrun.
  apply bind_Normal in Hrun as (p & log1 & log2 & Hst & Hret & _).
  injection Hret as <- _. cbn. by eapply store_keeps_block.
Qed.

Lemma add_index_checked_keeps_block index v (a a' : array_struct T) log :
  add_index_checked index v a = Normal a' log →
  is_Some (buf a) → is_Some (buf a').
Proof.
  unfold add_index_checked.
  destruct (decide (0 <= index ∧ index <= size a)).
  - intros Hrun _.
    apply bind_Normal in Hrun as (p & log1 & log2 & _ & Hrun & _).
    apply bind_Normal in Hrun as (p' & log3 & log4 & Hst & Hret & _).
    injection Hret as <- _. cbn. by eapply store_keeps_block.
  - by intros [= <- _].
Qed.

Lemma shrink_after_decrement_keeps_block r (a a' : array_struct T) log :
  shrink_after_decrement r a = Normal a' log →
  is_Some (buf a) → is_Some (buf a').
Proof.
  unfold shrink_after_decrement.
  cbn [size capacity min_capacity buf set_size set_capacity].
  destruct (decide _).
  - unfold call_realloc. destruct (realloc r (buf a) _); cbn.
    + intros [= <- _] _. by eexists.
    + by intros [= <- _].
  - by intros [= <- _].
Qed.

(** No operation turns a block into the null pointer. *)
Lemma run_op_keeps_block r o (a a' : array_struct T) log :
  run_op r o a = Normal a' log → is_Some (buf a) → is_Some (buf a').
Proof.
  intros Hrun Hb. destruct o as [v|index v|index v|index| |index];
    cbn [run_op] in Hrun.
  - unfold array_add in Hrun.
    destruct (decide (error a = OK_ERROR)); [|by injection Hrun as <- _].
    destruct (decide (size a = capacity a)).
    + apply bind_Normal in Hrun as (temp & log1 & log2 & _ & Hrun & _).
      destruct temp as [temp|].
      * by eapply add_tail_keeps_block.
      * by injection Hrun as <- _.
    + by eapply add_tail_keeps_block.
  - unfold array_add_index in Hrun.
    destruct (decide (error a = OK_ERROR)); [|by injection Hrun as <- _].
    destruct (decide (size a = capacity a)).
    + apply bind_Normal in Hrun as (temp & log1 & log2 & _ & Hrun & _).
      destruct temp as [temp|].
      * apply (add_index_checked_keeps_block _ _ _ _ _ Hrun). by eexists.
      * by injection Hrun as <- _.
    + by eapply add_index_checked_keeps_block.
  - unfold array_set in Hrun.
    destruct (decide (error a = OK_ERROR)); [|by injection Hrun as <- _].
    destruct (decide (0 <= index ∧ index < size a)).
    + apply bind_Normal in Hrun as (p & log1 & log2 & Hst & Hret & _).
      injection Hret as <- _. cbn. by eapply store_keeps_block.
    + by injection Hrun as <- _.
  - apply bind_Normal in Hrun as (res & log1 & log2 & Hget & Hret & _).
    injection Hret as <- _. unfold array_get in Hget.
    destruct (decide (error a = OK_ERROR)); [|by injection Hget as <- _].
    destruct (decide (0 <= index ∧ index < size a)).
    + apply bind_Normal in Hget as (x & log3 & log4 & _ & Hret & _).
      by injection Hret as <- _.
    + by injection Hget as <- _.
  - unfold array_remove in Hrun.
    destruct (decide (error a = OK_ERROR)); [|by injection Hrun as <- _].
    destruct (decide (size a > 0)).
    + by eapply shrink_after_decrement_keeps_block.
    + by injection Hrun as <- _.
  - unfold array_remove_index in Hrun.
    destruct (decide (error a = OK_ERROR)); [|by injection Hrun as <- _].
    destruct (decide (size a > 0 ∧ 0 <= index ∧ index < size a)).
    + apply bind_Normal in Hrun as (p & log1 & log2 & Hsh & Hrun & _).
      apply (shrink_after_decrement_keeps_block _ _ _ _ Hrun). cbn.
      unfold shift_left in Hsh. by eapply shift_left_loop_keeps_block.
    + by injection Hrun as <- _.
Qed.

Lemma run_ops_keep_block l (a a' : array_struct T) log :
  run_ops l a = Normal a' log → is_Some (buf a) → is_Some (buf a').
Proof.
  revert a log. induction l as [|[r o] l IH]; intros a log Hrun Hb.
  - by injection Hrun as <- _.
  - cbn [run_ops] in Hrun.
    apply bind_Normal in Hrun as (a1 & log1 & log2 & Hop & Hrest & _).
    apply (IH _ _ Hrest). by eapply run_op_keeps_block.
Qed.

(** X16: what array_free does after a run. Initialize with at least one
    slot and then any operations with any arguments, whatever the
    allocator answers to each call: the run returns, and if calloc handed
    a block to Initialize, [buf] is a block at the end and array_free
    hands it to [free]; if calloc returned the null pointer, [buf] is
    still the null pointer at the end and array_free does not call
    [free]. *)
Theorem array_free_after_a_run r0 c (a0 : array_struct T) l :
  1 <= c →
  ∃ a1 log0 a log,
    array_init r0 c a0 = Normal a1 log0 ∧
    run_ops l a1 = Normal a log ∧
    match calloc r0 c with
    | Some _ =>
        log0 = [Granted (Z.pos sizeof * c)] ∧
        ∃ block, buf a = Some block ∧ array_free a = Some block
    | None =>
        log0 = [Refused (Z.pos sizeof * c)] ∧
        buf a = None ∧ array_free a = None
    end.
Proof.
  intros Hc.
  destruct (array_init_returns r0 c a0) as (a1 & log0 & Hinit).
  destruct (init_run_step r0 c a0 l Hc) as (a' & log' & Hrun & _).
  rewrite Hinit in Hrun. cbn [mbind exec_bind] in Hrun.
  destruct (run_ops l a1) as [a log|] eqn:Hrun'; [|done].
  exists a1, log0, a, log. split; [done|]. split; [done|].
  unfold array_init, call_calloc in Hinit. unfold array_free.
  destruct (calloc r0 c) as [block0|]; cbn in Hinit; injection Hinit as <- <-.
  - split; [done|].
    destruct (run_ops_keep_block l _ a log Hrun') as [block Hb].
    { by eexists. }
    exists block. by rewrite Hb.
  - split; [done|].
    rewrite run_ops_sticky in Hrun' by done.
    injection Hrun' as <- _. done.
Qed.

End Release.

Lemma array_free_after_a_run_witness :
  (∃ a1 log0 a log,
     array_init grant 1 stale = Normal a1 log0 ∧
     run_ops [(grant, Append 1); (AllocFail, InsertAt 0 2)] a1 = Normal a log ∧
     log0 = [Granted 4] ∧
     ∃ block, buf a = Some block ∧ array_free a = Some block) ∧
  (∃ a1 log0 a log,
     array_init AllocFail 1 stale = Normal a1 log0 ∧
     run_ops [(grant, Append 1); (AllocFail, InsertAt 0 2)] a1 = Normal a log ∧
     log0 = [Refused 4] ∧
     buf a = None ∧ array_free a = None).
Proof.
  assert (1 <= 1) as Hc by lia.
  split.
  - exact (array_free_after_a_run grant 1 stale
             [(grant, Append 1); (AllocFail, InsertAt 0 2)] Hc).
  - exact (array_free_after_a_run AllocFail 1 stale
             [(grant, Append 1); (AllocFail, InsertAt 0 2)] Hc).
Defined.
